(** * Sigma tagger analyzer (timesketch/lib/analyzers/sigma_tagger.py)

    A shallow embedding of [SigmaPlugin.run_sigma_rule] and [SigmaPlugin.run]
    together with the properties of the tagging core: the per-event tag
    reconciliation, the per-rule execution, and the batch loop with its
    retry and reporting behaviour.

    Python objects that the analyzer mutates are modelled by explicit state
    passing:
    - the event store, the scheduled answers of the search backend, the
      application configuration and the sequence of observable calls live
      in a [World];
    - a rule's tag list is one list object shared by the rule record and by
      every call of [run_sigma_rule] on it, so the list is threaded through
      the executions and handed back to the rule.

    Failures of the backend surface while the events of a query are
    iterated; the mutation interface of an event is taken not to fail. *)

From stdpp Require Import gmap strings list fin_maps pretty.

(** The line separator used by ['\n'.join]. *)
Definition nl : string := String (Ascii.ascii_of_nat 10) EmptyString.

(** ** Exceptions and results *)

(** [elasticsearch.TransportError] (and its subclasses) is the class caught
    by the first handler of [run]; everything else falls to the bare
    [except]. *)
Inductive exn : Type :=
  | TransportError (msg : string)
  | TypeError (msg : string)
  | OtherError (msg : string).

Definition is_transport (e : exn) : bool :=
  match e with
  | TransportError _ => true
  | _ => false
  end.

(** [str(e)], used by the ['{1!s}'] format field. *)
Definition exn_str (e : exn) : string :=
  match e with
  | TransportError msg => msg
  | TypeError msg => msg
  | OtherError msg => msg
  end.

Inductive result (A : Type) : Type :=
  | Ok (a : A)
  | Raised (e : exn).
Arguments Ok {A} a.
Arguments Raised {A} e.

(** ** The world outside the analyzer *)

(** One step of the lazy sequence returned by [event_stream]: it either
    yields the event with the given identifier or raises. *)
Inductive stream_step : Type :=
  | Yield (event_id : string)
  | Raise (e : exn).

Inductive story_text : Type :=
  | SIGMA_STORY_HEADER
  | Text (s : string).

(** Calls on external collaborators, in the order they happen. *)
Inductive call : Type :=
  | AddAttributes (event_id key : string) (value : list string)
  | AddTags (event_id : string) (tag_list : list string)
  | Commit (event_id : string)
  | Sleep (sleep_time : nat)
  | LogError (msg : string)
  | LogDebug (msg : string)
  | SketchAddView (view_name analyzer_name query_string : string)
  | SketchAddAggregation (name agg_name : string)
  | SketchAddStory (name : string)
  | StoryAddText (text : story_text)
  | StoryAddAggregation
  | StoryAddView.

Record World : Type := mkWorld {
  (** event identifier -> attributes of the stored event *)
  store : gmap string (gmap string (list string));
  (** answers of the successive [event_stream] calls, each a function of
      the query string *)
  backend : list (string → list stream_step);
  (** [current_app.config] *)
  config : gmap string nat;
  trace : list call
}.

Definition set_store (s : gmap string (gmap string (list string))) (w : World) : World :=
  mkWorld s (backend w) (config w) (trace w).
Definition set_backend (b : list (string → list stream_step)) (w : World) : World :=
  mkWorld (store w) b (config w) (trace w).
Definition emit (c : call) (w : World) : World :=
  mkWorld (store w) (backend w) (config w) (trace w ++ [c]).

(** ** Events *)

Record Event : Type := mkEvent {
  event_id : string;
  source : gmap string (list string);
  updated_event : gmap string (list string)
}.

(** [list(set(l))]: the elements of [l] without repetition. Python leaves
    the order unspecified; properties below only use membership and the
    absence of duplicates. *)
Definition list_set (l : list string) : list string := remove_dups l.

(** [event.source.get(key, [])]. *)
Definition source_get (key : string) (event : Event) : list string :=
  default [] (source event !! key).

(** [source.get(key, [])] hands out the list stored in [source] itself when
    the key is present, so appending to the result is seen in [source]. *)
Definition source_appended (key : string) (l : list string) (event : Event) : Event :=
  match source event !! key with
  | Some _ => mkEvent (event_id event) (<[key := l]> (source event)) (updated_event event)
  | None => event
  end.

(** Modelled from the spec: the event mutation interface of the Event Store
    Client ([add_attributes], [add_tags], [commit]), whose code is not part
    of the analyzer. [add_attributes] stages a mapping. *)
Definition add_attributes (key : string) (value : list string)
    (event : Event) (w : World) : Event * World :=
  (mkEvent (event_id event) (source event) (<[key := value]> (updated_event event)),
   emit (AddAttributes (event_id event) key value) w).

(** Modelled from the spec: [add_tags] stages the union of the tags the
    event already has and the given ones (idempotent union). *)
Definition add_tags (tag_list : list string) (event : Event) (w : World) : Event * World :=
  (mkEvent (event_id event) (source event)
     (<["tag" := list_set (source_get "tag" event ++ tag_list)]> (updated_event event)),
   emit (AddTags (event_id event) tag_list) w).

(** Modelled from the spec: [commit] finalizes all changes staged on the
    event since the last commit as one unit. *)
Definition commit (event : Event) (w : World) : Event * World :=
  (mkEvent (event_id event) (source event) ∅,
   emit (Commit (event_id event))
     (set_store (<[event_id event :=
                     updated_event event ∪ default ∅ (store w !! event_id event)]> (store w)) w)).

(** Modelled from the spec: the query interface. A call takes the next
    scheduled answer of the backend; the events it yields are read from the
    store when they are yielded. *)
Definition event_stream (query_string : string) (w : World) : list stream_step * World :=
  match backend w with
  | [] => ([], w)
  | answer :: rest => (answer query_string, set_backend rest w)
  end.

Definition fetch (id : string) (w : World) : Event :=
  mkEvent id (default ∅ (store w !! id)) ∅.

(** ** run_sigma_rule *)

(** [tag.startswith(('attack.', 'car.'))] *)
Definition is_ttp (tag : string) : bool :=
  String.prefix "attack." tag || String.prefix "car." tag.

(** [l.remove(x)]: drops the first element equal to [x]. *)
Fixpoint list_remove (x : string) (l : list string) : list string :=
  match l with
  | [] => []
  | y :: l' => if String.eqb x y then l' else y :: list_remove x l'
  end.

(** The loop [for tag in tag_list] of lines 47-52. Python's list iterator
    keeps an index [i] into the list object and stops when [i] reaches the
    current length; the body removes from that same object. Every
    iteration advances [i], the length never grows, so [length tag_list]
    iterations always suffice. *)
Fixpoint tag_loop (fuel i : nat) (tag_list ts_ttp : list string)
    : list string * list string :=
  match fuel with
  | 0 => (tag_list, ts_ttp)
  | S fuel' =>
    match tag_list !! i with
    | None => (tag_list, ts_ttp)
    | Some tag =>
      if is_ttp tag
      then tag_loop fuel' (S i) (list_remove tag tag_list) (ts_ttp ++ [tag])
      else tag_loop fuel' (S i) tag_list ts_ttp
    end
  end.

(** The body of [for event in events] (lines 43-57). It returns the world,
    the tag list object as the body leaves it, and whether it raised. *)
Definition tag_event (rule_name : string) (tag_list : option (list string))
    (event : Event) (w : World) : World * option (list string) * result unit :=
  let ts_sigma_rules := source_get "ts_sigma_rule" event ++ [rule_name] in
  let event := source_appended "ts_sigma_rule" ts_sigma_rules event in
  let '(event, w) := add_attributes "ts_sigma_rule" (list_set ts_sigma_rules) event w in
  let ts_ttp := source_get "ts_ttp" event in
  match tag_list with
  | None => (w, None, Raised (TypeError "'NoneType' object is not iterable"))
  | Some tag_list =>
    let '(tag_list, ts_ttp) := tag_loop (length tag_list) 0 tag_list ts_ttp in
    let event := source_appended "ts_ttp" ts_ttp event in
    let '(event, w) := add_tags tag_list event w in
    let '(event, w) :=
      if 0 <? length ts_ttp
      then add_attributes "ts_ttp" (list_set ts_ttp) event w
      else (event, w) in
    let '(event, w) := commit event w in
    (w, Some tag_list, Ok ())
  end.

(** [for event in events: ...; tagged_events_counter += 1]. *)
Fixpoint events_loop (events : list stream_step) (rule_name : string)
    (tag_list : option (list string)) (tagged_events_counter : nat) (w : World)
    : World * option (list string) * result nat :=
  match events with
  | [] => (w, tag_list, Ok tagged_events_counter)
  | Raise e :: _ => (w, tag_list, Raised e)
  | Yield id :: events' =>
    match tag_event rule_name tag_list (fetch id w) w with
    | (w, tag_list, Raised e) => (w, tag_list, Raised e)
    | (w, tag_list, Ok _) =>
      events_loop events' rule_name tag_list (S tagged_events_counter) w
    end
  end.

Definition run_sigma_rule (query rule_name : string) (tag_list : option (list string))
    (w : World) : World * option (list string) * result nat :=
  let tagged_events_counter := 0 in
  let '(events, w) := event_stream query w in
  events_loop events rule_name tag_list tagged_events_counter w.

(** ** run *)

(** A rule record of the Rule Source. [tags] is [rule.get('tags')]: [None]
    when the record has no tag list. *)
Record Rule : Type := mkRule {
  file_name : string;
  es_query : string;
  tags : option (list string)
}.

(** The rule whose tag list object is in the state [tag_list]. *)
Definition with_tags (rule : Rule) (tag_list : option (list string)) : Rule :=
  mkRule (file_name rule) (es_query rule) tag_list.

(** The local variables of [run] that the loop updates; [sigma_rules_seen]
    holds the rule objects iterated so far, as the executions left them. *)
Record RunState : Type := mkRunState {
  tags_applied : gmap string nat;
  sigma_rule_counter : nat;
  problem_strings : list string;
  sigma_rules_seen : list Rule
}.

(** [d[key] += n] for a key that is present. *)
Definition dict_add (key : string) (n : nat) (d : gmap string nat) : gmap string nat :=
  <[key := default 0 (d !! key) + n]> d.

(** [sum(d.values())] *)
Definition sum_values (d : gmap string nat) : nat :=
  map_fold (λ _ v acc, v + acc) 0 d.

Definition timeout_message (rule : Rule) (e : exn) (sleep_time : nat) : string :=
  "Timeout executing search for " +:+ file_name rule +:+ ": " +:+ exn_str e
  +:+ " waiting for " +:+ pretty sleep_time +:+ " seconds "
  +:+ "(https://github.com/google/timesketch/issues/1782)".

Definition problem_message (rule : Rule) : string :=
  "Problem with rule in file " +:+ file_name rule +:+ ": ".

Definition progress_message (sigma_rule_counter len_sigma_rules : nat) : string :=
  "Rule " +:+ pretty sigma_rule_counter +:+ "/" +:+ pretty len_sigma_rules.

(** Lines 87-97: the cooldown duration is read from the configuration when
    the handler runs, logged, and slept. *)
Definition cooldown (rule : Rule) (e : exn) (w : World) : World :=
  let sleep_time := default 15 (config w !! "SIGMA_TAG_DELAY") in
  let w := emit (LogError (timeout_message rule e sleep_time)) w in
  emit (Sleep sleep_time) w.

(** The body of [for rule in sigma_rules] (lines 76-110). An exception that
    leaves the [try] statement leaves [run]. *)
Definition rule_body (len_sigma_rules : nat) (rule : Rule) (st : RunState) (w : World)
    : World * result RunState :=
  let tags_applied := <[file_name rule := 0]> (tags_applied st) in
  let sigma_rule_counter := S (sigma_rule_counter st) in
  match run_sigma_rule (es_query rule) (file_name rule) (tags rule) w with
  | (w, tag_list, Ok tagged_events_counter) =>
    let tags_applied := dict_add (file_name rule) tagged_events_counter tags_applied in
    let w :=
      if sigma_rule_counter mod 10 =? 0
      then emit (LogDebug (progress_message sigma_rule_counter len_sigma_rules)) w
      else w in
    (w, Ok (mkRunState tags_applied sigma_rule_counter (problem_strings st)
              (sigma_rules_seen st ++ [with_tags rule tag_list])))
  | (w, tag_list, Raised e) =>
    if is_transport e then
      (* except elasticsearch.TransportError as e: *)
      let w := cooldown rule e w in
      match run_sigma_rule (es_query rule) (file_name rule) tag_list w with
      | (w, tag_list, Ok tagged_events_counter) =>
        let tags_applied := dict_add (file_name rule) tagged_events_counter tags_applied in
        (w, Ok (mkRunState tags_applied sigma_rule_counter (problem_strings st)
                  (sigma_rules_seen st ++ [with_tags rule tag_list])))
      | (w, _, Raised e') => (w, Raised e')
      end
    else
      (* except: *)
      let w := emit (LogError (problem_message rule)) w in
      (w, Ok (mkRunState tags_applied sigma_rule_counter
                (problem_strings st ++ ["* " +:+ file_name rule])
                (sigma_rules_seen st ++ [with_tags rule tag_list])))
  end.

Fixpoint rules_loop (len_sigma_rules : nat) (sigma_rules : list Rule)
    (st : RunState) (w : World) : World * result RunState :=
  match sigma_rules with
  | [] => (w, Ok st)
  | rule :: sigma_rules' =>
    match rule_body len_sigma_rules rule st w with
    | (w, Raised e) => (w, Raised e)
    | (w, Ok st) => rules_loop len_sigma_rules sigma_rules' st w
    end
  end.

Definition dq : string := String (Ascii.ascii_of_nat 34) EmptyString.

(** [add_sigma_match_view]: the calls on the sketch and on the story. *)
Definition add_sigma_match_view (sigma_rule_counter : nat) (w : World) : World :=
  let w := emit (SketchAddView "Sigma Rule matches" "sigma"
                   ("tag:" +:+ dq +:+ "sigma*" +:+ dq)) w in
  let w := emit (SketchAddAggregation "Top 20 Sigma tags" "field_bucket") w in
  let w := emit (SketchAddStory "Sigma Rule hits") w in
  let w := emit (StoryAddText SIGMA_STORY_HEADER) w in
  let w := emit (StoryAddText (Text (
    "## Sigma Analyzer." +:+ nl +:+ nl +:+ "The Sigma "
    +:+ "analyzer takes Events and matches them with Sigma rules."
    +:+ "In this timeline the analyzer discovered " +:+ pretty sigma_rule_counter
    +:+ " Sigma tags." +:+ nl +:+ nl +:+ "This is a summary of "
    +:+ "it's findings."))) w in
  let w := emit (StoryAddText (Text "The top 20 most commonly discovered tags were:")) w in
  let w := emit StoryAddAggregation w in
  let w := emit (StoryAddText (Text "And an overview of all the discovered search terms:")) w in
  emit StoryAddView w.

Definition init_state : RunState := mkRunState ∅ 0 [] [].

(** Lines 112-122: the total, the reporting trigger and the summary. *)
Definition finalize (st : RunState) (w : World) : World * string :=
  let total_tagged_events := sum_values (tags_applied st) in
  let output_strings := ["Applied " +:+ pretty total_tagged_events +:+ " tags"] in
  let w :=
    if 0 <? total_tagged_events
    then add_sigma_match_view (sigma_rule_counter st) w
    else w in
  let output_strings :=
    if 0 <? length (problem_strings st)
    then output_strings ++ ["Problematic rules:"] ++ problem_strings st
    else output_strings in
  (w, String.concat nl output_strings).

(** [run], with the value returned by [ts_sigma_lib.get_all_sigma_rules()]
    as its argument ([None] when the rule source hands back nothing).
    Iterating [None] in [for rule in sigma_rules] raises. *)
Definition run (sigma_rules : option (list Rule)) (w : World) : World * result string :=
  let w :=
    match sigma_rules with
    | None => emit (LogError "No  Sigma rules found. Check SIGMA_RULES_FOLDERS") w
    | Some _ => w
    end in
  match sigma_rules with
  | None => (w, Raised (TypeError "'NoneType' object is not iterable"))
  | Some sigma_rules =>
    match rules_loop (length sigma_rules) sigma_rules init_state w with
    | (w, Raised e) => (w, Raised e)
    | (w, Ok st) => let '(w, summary) := finalize st w in (w, Ok summary)
    end
  end.

(** ** Observations on worlds, traces and streams *)

(** The value of attribute [key] on the stored event [id]; an absent event or
    attribute reads as the empty list. *)
Definition attr (key id : string) (w : World) : list string :=
  default [] (default ∅ (store w !! id) !! key).

(** The calls made between world [w] and a later world [w']. *)
Definition new_calls (w w' : World) : list call := drop (length (trace w)) (trace w').

(** Calls on the event mutation interface. *)
Definition is_event_call (c : call) : bool :=
  match c with
  | AddAttributes _ _ _ | AddTags _ _ | Commit _ => true
  | _ => false
  end.

(** Calls made by [add_sigma_match_view] on the sketch and its story. *)
Definition is_reporting (c : call) : bool :=
  match c with
  | SketchAddView _ _ _ | SketchAddAggregation _ _ | SketchAddStory _
  | StoryAddText _ | StoryAddAggregation | StoryAddView => true
  | _ => false
  end.

(** Every other call. *)
Definition not_reporting (c : call) : bool := negb (is_reporting c).

(** The durations of the [time.sleep] calls of a trace, in order. *)
Definition sleeps (t : list call) : list nat :=
  omap (λ c, match c with Sleep n => Some n | _ => None end) t.

(** The identifiers of the committed events of a trace, in order. *)
Definition commits (t : list call) : list string :=
  omap (λ c, match c with Commit id => Some id | _ => None end) t.

(** The reporting calls of a trace, in order. *)
Definition reporting_calls (t : list call) : list call :=
  filter (λ c, is_reporting c = true) t.

(** [w'] extends the trace of [w] by calls that all satisfy [P]. *)
Definition trace_ext (P : call → bool) (w w' : World) : Prop :=
  ∃ t, trace w' = trace w ++ t ∧ Forall (λ c, P c = true) t.

(** Between [w] and [w'] the two reserved attributes of every event only gain
    elements, and stay free of duplicates if they were. *)
Definition store_grows (w w' : World) : Prop :=
  ∀ id key, key = "ts_sigma_rule" ∨ key = "ts_ttp" →
    attr key id w ⊆ attr key id w' ∧ (NoDup (attr key id w) → NoDup (attr key id w')).

(** The identifiers a stream yields before it ends or raises. *)
Fixpoint yielded (events : list stream_step) : list string :=
  match events with
  | Yield id :: events' => id :: yielded events'
  | _ => []
  end.

(** The exception that ends a stream, if any. *)
Fixpoint stream_error (events : list stream_step) : option exn :=
  match events with
  | [] => None
  | Raise e :: _ => Some e
  | Yield _ :: events' => stream_error events'
  end.

(** How the executions of one rule end in [rule_body]: a count is recorded
    (from the first execution or from the retry), the rule is listed as
    problematic, or an exception leaves [run]. *)
Inductive outcome : Type :=
  | Tagged (n : nat)
  | Fatal
  | Escaped (e : exn).

(** The outcome of [rule] when its iteration starts in world [w]. *)
Definition rule_outcome (rule : Rule) (w : World) : outcome :=
  match run_sigma_rule (es_query rule) (file_name rule) (tags rule) w with
  | (_, _, Ok n) => Tagged n
  | (w, tag_list, Raised e) =>
    if is_transport e then
      match run_sigma_rule (es_query rule) (file_name rule) tag_list (cooldown rule e w) with
      | (_, _, Ok n) => Tagged n
      | (_, _, Raised e') => Escaped e'
      end
    else Fatal
  end.

(** The count left in [tags_applied] for a rule with the given outcome. *)
Definition recorded (o : outcome) : nat :=
  match o with
  | Tagged n => n
  | _ => 0
  end.

(** The outcomes of the rules of one loop, in source order, each with the
    rule identifier; the loop stops at the first exception that leaves it. *)
Fixpoint history (len_sigma_rules : nat) (sigma_rules : list Rule)
    (st : RunState) (w : World) : list (string * outcome) :=
  match sigma_rules with
  | [] => []
  | rule :: sigma_rules' =>
    (file_name rule, rule_outcome rule w) ::
    match rule_body len_sigma_rules rule st w with
    | (w, Ok st) => history len_sigma_rules sigma_rules' st w
    | (_, Raised _) => []
    end
  end.

(** The identifiers of the rules that failed fatally. *)
Definition fatal_rules (h : list (string * outcome)) : list string :=
  omap (λ entry, match entry.2 with Fatal => Some entry.1 | _ => None end) h.

(** [tags_applied] after the iteration of one rule. *)
Definition record_outcome (d : gmap string nat) (entry : string * outcome) : gmap string nat :=
  <[entry.1 := recorded entry.2]> d.

(** One line of the problem list. *)
Definition bullet (name : string) : string := "* " +:+ name.

(** The summary as the specification words it: the line with the total, and
    when some rule failed fatally the header line and one bullet per failed
    rule. *)
Definition summary_lines (total : nat) (failed : list string) : list string :=
  ("Applied " +:+ pretty total +:+ " tags") ::
  match failed with
  | [] => []
  | _ :: _ => "Problematic rules:" :: (bullet <$> failed)
  end.

(** ** Example inputs *)

(** The three rules A, B, C of the scenario of the specification. *)
Definition scenario_rules : list Rule :=
  [mkRule "A" "qa" (Some ["susp_proc"]); mkRule "B" "qb" (Some []); mkRule "C" "qc" (Some [])].

(** A world in which A matches two events, B none, and C fails at once. *)
Definition scenario_world : World :=
  mkWorld ∅ [λ _, [Yield "e1"; Yield "e2"]; λ _, []; λ _, [Raise (OtherError "boom")]] ∅ [].

(** A world whose next query fails with an error that is not a transport
    error. *)
Definition failing_world : World :=
  mkWorld ∅ [λ _, [Raise (OtherError "boom")]] ∅ [].

(** A world whose next query matches one event that has no attributes. *)
Definition single_event_world : World :=
  mkWorld ∅ [λ _, [Yield "e1"]] ∅ [].

Definition retry_rule : Rule := mkRule "A" "qa" (Some ["susp_proc"]).

(** A world whose first query times out and whose second matches one event,
    with a configured cooldown of 30. *)
Definition retry_world : World :=
  mkWorld ∅ [λ _, [Raise (TransportError "timeout")]; λ _, [Yield "e1"]]
    {["SIGMA_TAG_DELAY" := 30]} [].

(** ** Further observations and example inputs *)

(** No two neighbours of the list are both technique tags. *)
Fixpoint no_adjacent_ttp (tag_list : list string) : bool :=
  match tag_list with
  | a :: (b :: _) as rest => negb (is_ttp a && is_ttp b) && no_adjacent_ttp rest
  | _ => true
  end.

(** The technique tags of a list, in order. *)
Definition ttp_tags (tag_list : list string) : list string :=
  filter (λ tag, is_ttp tag = true) tag_list.

(** The other tags of a list, in order. *)
Definition ordinary_tags (tag_list : list string) : list string :=
  filter (λ tag, is_ttp tag = false) tag_list.

(** Two lists with the same elements, whatever the order and the repetitions. *)
Definition same_elements (l1 l2 : list string) : Prop := ∀ x, x ∈ l1 ↔ x ∈ l2.

(** An entry of a history whose rule did not end [run]. *)
Definition not_escaped (entry : string * outcome) : Prop := ∀ e, entry.2 ≠ Escaped e.

(** The entries of a history for one rule identifier. *)
Definition named (name : string) (h : list (string * outcome)) : list (string * outcome) :=
  filter (λ entry, entry.1 = name) h.

(** A tag list whose two technique tags are separated by an ordinary tag. *)
Definition spaced_tag_list : list string := ["attack.t1059"; "susp_cmd"; "car.2013"].

(** A world without events, answers or configuration. *)
Definition empty_world : World := mkWorld ∅ [] ∅ [].

(** Two rules under one identifier. *)
Definition duplicate_rules : list Rule :=
  [mkRule "A" "q1" (Some ["susp_proc"]); mkRule "A" "q2" (Some ["susp_proc"])].

(** A world in which the first query matches two events and the second one. *)
Definition duplicate_world : World :=
  mkWorld ∅ [λ _, [Yield "e1"; Yield "e2"]; λ _, [Yield "e3"]] ∅ [].

(** A world whose next query yields one event and then fails. *)
Definition partial_world : World :=
  mkWorld ∅ [λ _, [Yield "e1"; Raise (OtherError "boom")]] ∅ [].

(** The state a loop ended in ([init_state] if it raised). *)
Definition state_of (r : result RunState) : RunState :=
  match r with
  | Ok st => st
  | Raised _ => init_state
  end.

(** ** Lists and the tag loop *)

Lemma list_remove_length (x : string) (l : list string) :
  x ∈ l → S (length (list_remove x l)) = length l.
Proof.
  induction l as [|y l IH]; intros Hin.
  - by apply elem_of_nil in Hin.
  - simpl. destruct (String.eqb x y) eqn:E; [done|].
    apply String.eqb_neq in E. simpl. f_equal. apply IH.
    apply elem_of_cons in Hin as [->|]; [done|assumption].
Qed.

Lemma list_remove_subseteq (x : string) (l : list string) :
  list_remove x l ⊆ l.
Proof.
  induction l as [|y l IH]; simpl; [done|].
  destruct (String.eqb x y).
  - intros z Hz. by right.
  - intros z Hz. apply elem_of_cons in Hz as [->|Hz]; [left|right; by apply IH].
Qed.

(** The loop of the tag list ends because the index reaches the end of the
    list: any two amounts of fuel that cover the remaining length give the
    same result. *)
Lemma tag_loop_fuel (fuel fuel' i : nat) (tag_list ts_ttp : list string) :
  length tag_list - i ≤ fuel → length tag_list - i ≤ fuel' →
  tag_loop fuel i tag_list ts_ttp = tag_loop fuel' i tag_list ts_ttp.
Proof.
  revert fuel' i tag_list ts_ttp.
  induction fuel as [|fuel IH]; intros fuel' i l t H1 H2.
  - destruct fuel' as [|fuel']; [done|]. simpl.
    rewrite lookup_ge_None_2; [done|lia].
  - simpl. destruct (l !! i) as [tag|] eqn:El.
    + apply lookup_lt_Some in El as Hlt.
      destruct fuel' as [|fuel']; [lia|]. simpl. rewrite El.
      destruct (is_ttp tag).
      * apply IH.
        -- pose proof (list_remove_length tag l) as Hl.
           rewrite <- Hl in H1 by (by eapply list_elem_of_lookup_2). lia.
        -- pose proof (list_remove_length tag l) as Hl.
           rewrite <- Hl in H2 by (by eapply list_elem_of_lookup_2). lia.
      * apply IH; lia.
    + destruct fuel'; [done|]. simpl. by rewrite El.
Qed.

(** The loop only appends to [ts_ttp], and what it appends are technique tags
    of the list. *)
Lemma tag_loop_ttp (fuel i : nat) (tag_list ts_ttp : list string) :
  ∃ moved, (tag_loop fuel i tag_list ts_ttp).2 = ts_ttp ++ moved
    ∧ Forall (λ tag, is_ttp tag = true) moved ∧ moved ⊆ tag_list.
Proof.
  revert i tag_list ts_ttp.
  induction fuel as [|fuel IH]; intros i l t; simpl.
  - exists []. rewrite app_nil_r. split_and!; [done|constructor|apply list_subseteq_nil].
  - destruct (l !! i) as [tag|] eqn:El.
    + destruct (is_ttp tag) eqn:Et.
      * destruct (IH (S i) (list_remove tag l) (t ++ [tag])) as (moved & -> & Hm & Hsub).
        exists (tag :: moved). split; [by rewrite <- app_assoc|]. split; [by constructor|].
        apply list_elem_of_lookup_2 in El. intros x Hx.
        apply elem_of_cons in Hx as [->|Hx]; [done|].
        by apply (list_remove_subseteq tag l), Hsub.
      * apply IH.
    + exists []. rewrite app_nil_r. split_and!; [done|constructor|apply list_subseteq_nil].
Qed.

(** ** One event *)

Lemma source_get_fetch (key id : string) (w : World) :
  source_get key (fetch id w) = attr key id w.
Proof. reflexivity. Qed.

Lemma source_get_appended_ne (key key' : string) (l : list string) (event : Event) :
  key ≠ key' → source_get key' (source_appended key l event) = source_get key' event.
Proof.
  intros Hne. unfold source_appended, source_get.
  destruct (source event !! key); [|done]. simpl. by rewrite lookup_insert_ne.
Qed.

Lemma event_id_appended (key : string) (l : list string) (event : Event) :
  event_id (source_appended key l event) = event_id event.
Proof. unfold source_appended. by destruct (source event !! key). Qed.

Lemma updated_event_appended (key : string) (l : list string) (event : Event) :
  updated_event (source_appended key l event) = updated_event event.
Proof. unfold source_appended. by destruct (source event !! key). Qed.

Lemma source_appended_lookup_ne (key key' : string) (l : list string) (event : Event) :
  key ≠ key' → source (source_appended key l event) !! key' = source event !! key'.
Proof.
  intros Hne. unfold source_appended.
  destruct (source event !! key); [|done]. simpl. by rewrite lookup_insert_ne.
Qed.

(** The effect of the loop body on an event read from the store, for a rule
    that has a tag list. *)
Lemma tag_event_Some (rule_name : string) (l : list string) (id : string) (w : World) :
  let r := tag_loop (length l) 0 l (attr "ts_ttp" id w) in
  ∃ w', tag_event rule_name (Some l) (fetch id w) w = (w', Some r.1, Ok ())
    ∧ config w' = config w ∧ backend w' = backend w
    ∧ trace w' = trace w
        ++ [AddAttributes id "ts_sigma_rule" (list_set (attr "ts_sigma_rule" id w ++ [rule_name]));
            AddTags id r.1]
        ++ (if 0 <? length r.2 then [AddAttributes id "ts_ttp" (list_set r.2)] else [])
        ++ [Commit id]
    ∧ (∀ id', id' ≠ id → store w' !! id' = store w !! id')
    ∧ attr "ts_sigma_rule" id w' = list_set (attr "ts_sigma_rule" id w ++ [rule_name])
    ∧ attr "ts_ttp" id w' = (if 0 <? length r.2 then list_set r.2 else attr "ts_ttp" id w).
Proof.
  intros r. unfold tag_event, add_attributes, add_tags, commit. cbv beta iota zeta.
  unfold source_get.
  repeat (progress (cbn [source event_id updated_event fetch];
          rewrite ?event_id_appended, ?updated_event_appended,
                  ?source_appended_lookup_ne by done)).
  change (default [] (default ∅ (store w !! id) !! "ts_ttp")) with (attr "ts_ttp" id w).
  change (default [] (default ∅ (store w !! id) !! "ts_sigma_rule")) with (attr "ts_sigma_rule" id w).
  fold r. destruct r as [l' t']. cbn [fst snd].
  repeat (progress (cbn [source event_id updated_event fetch];
          rewrite ?event_id_appended, ?updated_event_appended,
                  ?source_appended_lookup_ne by done)).
  destruct (0 <? length t') eqn:Et; cbv beta iota zeta;
    cbn [emit set_store store backend config trace event_id updated_event source].
  - eexists. split; [reflexivity|]. cbn [emit set_store config backend trace store].
    split_and!; try done.
    + by rewrite <- ?app_assoc.
    + intros id' Hne. by rewrite lookup_insert_ne.
    + unfold attr. cbn [emit set_store store]. rewrite lookup_insert_eq. simpl.
      rewrite lookup_union_l'; [by simplify_map_eq|]. by simplify_map_eq.
    + unfold attr. cbn [emit set_store store]. rewrite lookup_insert_eq. simpl.
      rewrite lookup_union_l'; [by simplify_map_eq|]. by simplify_map_eq.
  - eexists. split; [reflexivity|]. cbn [emit set_store config backend trace store].
    split_and!; try done.
    + by rewrite <- ?app_assoc.
    + intros id' Hne. by rewrite lookup_insert_ne.
    + unfold attr. cbn [emit set_store store]. rewrite lookup_insert_eq. simpl.
      rewrite lookup_union_l'; [by simplify_map_eq|]. by simplify_map_eq.
    + unfold attr. cbn [emit set_store store]. rewrite lookup_insert_eq. simpl.
      rewrite lookup_union_r; [done|]. by simplify_map_eq.
Qed.

(** Without a tag list the body raises after staging the rule identifier and
    before any commit. *)
Lemma tag_event_None (rule_name id : string) (w : World) :
  tag_event rule_name None (fetch id w) w
  = (emit (AddAttributes id "ts_sigma_rule"
             (list_set (attr "ts_sigma_rule" id w ++ [rule_name]))) w,
     None, Raised (TypeError "'NoneType' object is not iterable")).
Proof.
  unfold tag_event, add_attributes. cbv beta iota zeta.
  by rewrite event_id_appended.
Qed.

(** ** What an execution leaves unchanged *)

Lemma store_grows_refl (w : World) : store_grows w w.
Proof. intros id key _. split; [done|auto]. Qed.

Lemma store_grows_trans (w1 w2 w3 : World) :
  store_grows w1 w2 → store_grows w2 w3 → store_grows w1 w3.
Proof.
  intros H12 H23 id key Hk.
  destruct (H12 id key Hk) as [Ha Hb], (H23 id key Hk) as [Hc Hd].
  split; [by etrans|auto].
Qed.

Lemma trace_ext_refl (P : call → bool) (w : World) : trace_ext P w w.
Proof. exists []. by rewrite app_nil_r. Qed.

Lemma trace_ext_trans (P : call → bool) (w1 w2 w3 : World) :
  trace_ext P w1 w2 → trace_ext P w2 w3 → trace_ext P w1 w3.
Proof.
  intros (t1 & E1 & F1) (t2 & E2 & F2). exists (t1 ++ t2).
  split; [by rewrite E2, E1, app_assoc|by apply Forall_app].
Qed.

Lemma trace_ext_weaken (P Q : call → bool) (w w' : World) :
  (∀ c, P c = true → Q c = true) → trace_ext P w w' → trace_ext Q w w'.
Proof.
  intros HPQ (t & E & F). exists t. split; [done|].
  eapply Forall_impl; [exact F|]. auto.
Qed.

Lemma trace_ext_emit (P : call → bool) (c : call) (w : World) :
  P c = true → trace_ext P w (emit c w).
Proof. intros Hc. exists [c]. split; [done|]. by constructor. Qed.

Lemma new_calls_app (w w' : World) (t : list call) :
  trace w' = trace w ++ t → new_calls w w' = t.
Proof. intros Ht. unfold new_calls. by rewrite Ht, drop_app_length. Qed.

Lemma tag_event_frame (rule_name : string) (tag_list : option (list string))
    (id : string) (w w' : World) (tag_list' : option (list string)) (r : result unit) :
  tag_event rule_name tag_list (fetch id w) w = (w', tag_list', r) →
  config w' = config w ∧ backend w' = backend w
  ∧ trace_ext is_event_call w w' ∧ store_grows w w'.
Proof.
  destruct tag_list as [l|].
  - destruct (tag_event_Some rule_name l id w) as (w1 & -> & Hc & Hb & Ht & Hs & Hr & Http).
    intros [= <- _ _]. split_and!; [done|done| |].
    + eexists. split; [exact Ht|].
      destruct (0 <? _); repeat constructor.
    + intros id' key Hk. destruct (decide (id' = id)) as [->|Hne].
      * destruct Hk as [-> | ->].
        -- rewrite Hr. split.
           ++ intros x Hx. apply elem_of_remove_dups, elem_of_app. by left.
           ++ intros _. apply NoDup_remove_dups.
        -- rewrite Http. clear Ht Http.
           destruct (tag_loop_ttp (length l) 0 l (attr "ts_ttp" id w)) as (moved & -> & _).
           destruct (0 <? length _); [|split; [reflexivity|by intros ?]]. split.
           ++ intros x Hx. apply elem_of_remove_dups, elem_of_app. by left.
           ++ intros _. apply NoDup_remove_dups.
      * unfold attr. rewrite (Hs id' Hne). split; [done|auto].
  - rewrite tag_event_None. intros [= <- _ _]. split_and!; [done|done| |].
    + by apply trace_ext_emit.
    + intros id' key _. split; [reflexivity|by intros ?].
Qed.

Lemma events_loop_frame (events : list stream_step) (rule_name : string)
    (tag_list : option (list string)) (n : nat) (w w' : World)
    (tag_list' : option (list string)) (r : result nat) :
  events_loop events rule_name tag_list n w = (w', tag_list', r) →
  config w' = config w ∧ backend w' = backend w
  ∧ trace_ext is_event_call w w' ∧ store_grows w w'.
Proof.
  revert tag_list n w.
  induction events as [|[id|e] events IH]; intros tag_list n w; simpl.
  - intros [= <- _ _]. split_and!; [done|done|apply trace_ext_refl|apply store_grows_refl].
  - destruct (tag_event rule_name tag_list (fetch id w) w) as [[w1 tl1] [[]|e]] eqn:E1.
    + intros E2. apply tag_event_frame in E1 as (Hc1 & Hb1 & Ht1 & Hs1).
      apply IH in E2 as (Hc2 & Hb2 & Ht2 & Hs2).
      split_and!; [congruence|congruence|by eapply trace_ext_trans|by eapply store_grows_trans].
    + intros [= <- _ _]. by apply tag_event_frame in E1.
  - intros [= <- _ _]. split_and!; [done|done|apply trace_ext_refl|apply store_grows_refl].
Qed.

Lemma run_sigma_rule_frame (query rule_name : string) (tag_list : option (list string))
    (w w' : World) (tag_list' : option (list string)) (r : result nat) :
  run_sigma_rule query rule_name tag_list w = (w', tag_list', r) →
  config w' = config w ∧ trace_ext is_event_call w w' ∧ store_grows w w'.
Proof.
  unfold run_sigma_rule, event_stream.
  destruct (backend w) as [|answer rest]; intros E;
    apply events_loop_frame in E as (Hc & _ & Ht & Hs); done.
Qed.

Lemma run_sigma_rule_backend (query rule_name : string) (tag_list : option (list string))
    (w : World) (answer : string → list stream_step) (rest : list (string → list stream_step)) :
  backend w = answer :: rest →
  run_sigma_rule query rule_name tag_list w
  = events_loop (answer query) rule_name tag_list 0 (set_backend rest w).
Proof. intros Hb. unfold run_sigma_rule, event_stream. by rewrite Hb. Qed.

Lemma sleeps_event_calls (t : list call) :
  Forall (λ c, is_event_call c = true) t → sleeps t = [].
Proof.
  induction 1 as [|c t Hc _ IH]; [done|].
  unfold sleeps in *. destruct c; try done; simpl; by rewrite IH.
Qed.

Lemma sleeps_trace_ext (w w' : World) :
  trace_ext is_event_call w w' → sleeps (trace w') = sleeps (trace w).
Proof.
  intros (t & -> & Ht). unfold sleeps. rewrite omap_app.
  fold (sleeps t). by rewrite (sleeps_event_calls t Ht), app_nil_r.
Qed.

Lemma reporting_calls_none (t : list call) :
  Forall (λ c, not_reporting c = true) t → reporting_calls t = [].
Proof.
  induction 1 as [|c t Hc _ IH]; [done|].
  unfold reporting_calls in *. rewrite filter_cons. case_decide as Hr; [|done].
  unfold not_reporting in Hc. by rewrite Hr in Hc.
Qed.

Lemma reporting_calls_ext (w w' : World) :
  trace_ext not_reporting w w' → reporting_calls (trace w') = reporting_calls (trace w).
Proof.
  intros (t & -> & Ht). unfold reporting_calls. rewrite filter_app.
  fold (reporting_calls t). by rewrite (reporting_calls_none t Ht), app_nil_r.
Qed.

(** ** The events of one execution *)

(** With a tag list, the loop over the events ends as the stream ends, and
    commits every yielded event once. *)
Lemma events_loop_Some (events : list stream_step) (rule_name : string)
    (l : list string) (n : nat) (w : World) :
  ∃ w' l',
    events_loop events rule_name (Some l) n w
    = (w', Some l',
       match stream_error events with
       | None => Ok (n + length (yielded events))
       | Some e => Raised e
       end)
    ∧ commits (trace w') = commits (trace w) ++ yielded events.
Proof.
  revert l n w. induction events as [|[id|e] events IH]; intros l n w; simpl.
  - exists w, l. by rewrite Nat.add_0_r, app_nil_r.
  - destruct (tag_event_Some rule_name l id w) as (w1 & -> & _ & _ & Ht & _).
    destruct (IH (tag_loop (length l) 0 l (attr "ts_ttp" id w)).1 (S n) w1)
      as (w' & l' & -> & Hc).
    exists w', l'. split.
    + destruct (stream_error events); [done|]. do 2 f_equal. lia.
    + rewrite Hc. unfold commits. rewrite Ht, !omap_app.
      destruct (0 <? _); simpl; by rewrite <- app_assoc.
  - exists w, l. by rewrite app_nil_r.
Qed.

Lemma stream_error_None (events : list stream_step) :
  stream_error events = None → events = Yield <$> yielded events.
Proof.
  induction events as [|[id|e] events IH]; csimpl; [done| |done].
  intros H. f_equal. by apply IH.
Qed.

Lemma events_loop_Ok (events : list stream_step) (rule_name : string)
    (tag_list : option (list string)) (n : nat) (w w' : World)
    (tag_list' : option (list string)) (m : nat) :
  events_loop events rule_name tag_list n w = (w', tag_list', Ok m) →
  events = Yield <$> yielded events
  ∧ m = n + length (yielded events)
  ∧ commits (trace w') = commits (trace w) ++ yielded events.
Proof.
  destruct tag_list as [l|].
  - destruct (events_loop_Some events rule_name l n w) as (w1 & l1 & -> & Hc).
    destruct (stream_error events) eqn:Es; [done|].
    intros [= <- _ <-]. split_and!; [by apply stream_error_None|done|done].
  - destruct events as [|[id|e] events]; cbn [events_loop yielded length].
    + intros [= <- _ <-]. by rewrite Nat.add_0_r, app_nil_r.
    + by rewrite tag_event_None.
    + done.
Qed.

(** ** The rule loop *)

Lemma dict_add_fresh (key : string) (n : nat) (d : gmap string nat) :
  dict_add key n (<[key := 0]> d) = <[key := n]> d.
Proof. unfold dict_add. by rewrite lookup_insert_eq, insert_insert_eq. Qed.

(** The state after one iteration of the rule loop, by outcome. *)
Lemma rule_body_outcome (len : nat) (rule : Rule) (st : RunState) (w : World) :
  match rule_outcome rule w with
  | Tagged n => ∃ w' tl,
      rule_body len rule st w
      = (w', Ok (mkRunState (<[file_name rule := n]> (tags_applied st))
                   (S (sigma_rule_counter st)) (problem_strings st)
                   (sigma_rules_seen st ++ [with_tags rule tl])))
  | Fatal => ∃ w' tl,
      rule_body len rule st w
      = (w', Ok (mkRunState (<[file_name rule := 0]> (tags_applied st))
                   (S (sigma_rule_counter st))
                   (problem_strings st ++ ["* " +:+ file_name rule])
                   (sigma_rules_seen st ++ [with_tags rule tl])))
  | Escaped e => ∃ w', rule_body len rule st w = (w', Raised e)
  end.
Proof.
  unfold rule_outcome, rule_body.
  destruct (run_sigma_rule _ _ (tags rule) w) as [[w1 tl1] [n|e]].
  - rewrite dict_add_fresh. eauto.
  - destruct (is_transport e).
    + destruct (run_sigma_rule _ _ tl1 _) as [[w2 tl2] [n|e']].
      * rewrite dict_add_fresh. eauto.
      * eauto.
    + eauto.
Qed.

Lemma rule_body_frame (len : nat) (rule : Rule) (st : RunState) (w w' : World)
    (r : result RunState) :
  rule_body len rule st w = (w', r) →
  config w' = config w ∧ trace_ext not_reporting w w' ∧ store_grows w w'.
Proof.
  assert (Hev : ∀ c, is_event_call c = true → not_reporting c = true) by (by intros []).
  unfold rule_body.
  destruct (run_sigma_rule _ _ (tags rule) w) as [[w1 tl1] [n|e]] eqn:E1;
    apply run_sigma_rule_frame in E1 as (Hc1 & Ht1 & Hs1);
    apply (trace_ext_weaken _ _ _ _ Hev) in Ht1.
  - intros [= <- _]. destruct (_ =? _).
    + split_and!; [done| |done].
      eapply trace_ext_trans; [exact Ht1|]. by apply trace_ext_emit.
    + done.
  - destruct (is_transport e).
    + destruct (run_sigma_rule _ _ tl1 _) as [[w2 tl2] r2] eqn:E2.
      apply run_sigma_rule_frame in E2 as (Hc2 & Ht2 & Hs2).
      apply (trace_ext_weaken _ _ _ _ Hev) in Ht2.
      assert (config w' = config w2 ∧ trace w' = trace w2 ∧ store w' = store w2 → 
        config w' = config w ∧ trace_ext not_reporting w w' ∧ store_grows w w') as Hfin.
      { intros (Ec & Et & Es). split_and!.
        - rewrite Ec, Hc2. simpl. done.
        - eapply trace_ext_trans; [exact Ht1|].
          destruct Ht2 as (t2 & Et2 & F2). rewrite <- Et in Et2.
          exists ([LogError (timeout_message rule e (default 15 (config w1 !! "SIGMA_TAG_DELAY")));
                   Sleep (default 15 (config w1 !! "SIGMA_TAG_DELAY"))] ++ t2).
          split.
          + rewrite Et2. unfold cooldown. simpl. by rewrite <- !app_assoc.
          + apply Forall_app. split; [repeat constructor|done].
        - eapply store_grows_trans; [exact Hs1|].
          intros id key Hk. destruct (Hs2 id key Hk) as [Ha Hb].
          unfold attr in *. rewrite Es. done. }
      destruct r2; intros [= <- _]; by apply Hfin.
    + intros [= <- _]. split_and!; [done| |done].
      eapply trace_ext_trans; [exact Ht1|]. by apply trace_ext_emit.
Qed.

Lemma rules_loop_frame (len : nat) (rules : list Rule) (st : RunState) (w w' : World)
    (r : result RunState) :
  rules_loop len rules st w = (w', r) →
  config w' = config w ∧ trace_ext not_reporting w w' ∧ store_grows w w'.
Proof.
  revert st w. induction rules as [|rule rules IH]; intros st w; simpl.
  - intros [= <- _]. split_and!; [done|apply trace_ext_refl|apply store_grows_refl].
  - destruct (rule_body len rule st w) as [w1 [st1|e]] eqn:E1;
      apply rule_body_frame in E1 as (Hc1 & Ht1 & Hs1).
    + intros E2. apply IH in E2 as (Hc2 & Ht2 & Hs2).
      split_and!; [congruence|by eapply trace_ext_trans|by eapply store_grows_trans].
    + by intros [= <- _].
Qed.

Lemma sum_values_insert_fresh (key : string) (n : nat) (d : gmap string nat) :
  d !! key = None → sum_values (<[key := n]> d) = n + sum_values d.
Proof.
  intros Hnone. unfold sum_values.
  rewrite map_fold_insert_L; [done| |done]. intros. lia.
Qed.


(** The state after a loop that ran to its end, in terms of its history. *)
Lemma rules_loop_history (len : nat) (rules : list Rule) (st : RunState) (w w' : World)
    (st' : RunState) :
  rules_loop len rules st w = (w', Ok st') →
  sigma_rule_counter st' = sigma_rule_counter st + length rules
  ∧ problem_strings st' = problem_strings st ++ (bullet <$> fatal_rules (history len rules st w))
  ∧ tags_applied st' = foldl record_outcome (tags_applied st) (history len rules st w)
  ∧ (history len rules st w).*1 = file_name <$> rules.
Proof.
  revert st w. induction rules as [|rule rules IH]; intros st w; simpl.
  - intros [= <- <-]. by rewrite Nat.add_0_r, app_nil_r.
  - pose proof (rule_body_outcome len rule st w) as Ho.
    unfold fatal_rules. simpl.
    destruct (rule_outcome rule w) as [n| |e] eqn:Eo.
    + destruct Ho as (w1 & tl & ->). intros E. apply IH in E as (Hc & Hp & Ht & Hn).
      simpl in *. split_and!; [lia|done|done|by f_equal].
    + destruct Ho as (w1 & tl & ->). intros E. apply IH in E as (Hc & Hp & Ht & Hn).
      simpl in *. split_and!; [lia| |done|by f_equal].
      rewrite Hp. by rewrite <- app_assoc.
    + destruct Ho as (w1 & ->). done.
Qed.

Lemma run_Ok (rules : list Rule) (w w' : World) (summary : string) :
  run (Some rules) w = (w', Ok summary) →
  ∃ w1 st, rules_loop (length rules) rules init_state w = (w1, Ok st)
    ∧ finalize st w1 = (w', summary).
Proof.
  unfold run. destruct (rules_loop _ _ _ _) as [w1 [st|e]]; [|done].
  destruct (finalize st w1) as [w2 s] eqn:Ef. intros [= <- <-]. eauto.
Qed.

Lemma run_frame (sigma_rules : option (list Rule)) (w w' : World) (r : result string) :
  run sigma_rules w = (w', r) → config w' = config w ∧ store_grows w w'.
Proof.
  unfold run. destruct sigma_rules as [rules|].
  - destruct (rules_loop _ _ _ _) as [w1 [st|e]] eqn:E;
      apply rules_loop_frame in E as (Hc & _ & Hs).
    + unfold finalize. intros [= <- _]. destruct (0 <? _); done.
    + by intros [= <- _].
  - intros [= <- _]. split; [done|]. intros id key _. split; [reflexivity|by intros ?].
Qed.

Lemma length_fatal_bullets (h : list (string * outcome)) :
  length (bullet <$> fatal_rules h) = length (fatal_rules h).
Proof. apply length_fmap. Qed.


(** ** Properties of the analyzer *)

(** C1 (fails on the code). The claim: after reconciliation [ts_ttp] holds
    the prior technique tags and every technique tag of the tag list, no
    technique tag reaches [add_tags], and the input list is not mutated.
    For one matched event without attributes and the tag list
    [attack.t1059; car.2013], both technique tags, the loop removes the first
    tag from the list it iterates and so never visits the second: [add_tags]
    receives [car.2013], [ts_ttp] is written without it, and the tag list of
    the caller is left as [car.2013]. *)
Theorem C1_adjacent_technique_tag_is_skipped :
  let w := mkWorld ∅ [λ _, [Yield "e1"]] ∅ [] in
  let out := run_sigma_rule "q" "rule" (Some ["attack.t1059"; "car.2013"]) w in
  is_ttp "attack.t1059" = true ∧ is_ttp "car.2013" = true
  ∧ out.2 = Ok 1
  ∧ trace out.1.1
    = [AddAttributes "e1" "ts_sigma_rule" ["rule"];
       AddTags "e1" ["car.2013"];
       AddAttributes "e1" "ts_ttp" ["attack.t1059"];
       Commit "e1"]
  ∧ attr "ts_ttp" "e1" out.1.1 = ["attack.t1059"]
  ∧ out.1.2 = Some ["car.2013"].
Proof. vm_compute. by split_and!. Qed.

(** C2 (fails on the code). The claim: when the retry of a rule fails, the
    rule is marked fatal, the next rule runs, and no failure leaves [run].
    For rules A and B where A first raises a transport error and its retry
    raises again (a transport error or any other error), the exception of
    the retry leaves [run]: it is raised inside the first handler, where the
    bare handler does not apply. Rule B is never queried (its answer is still
    pending in the backend) and nothing is committed. *)
Theorem C2_failed_retry_leaves_run :
  let rules := [mkRule "A" "qa" (Some []); mkRule "B" "qb" (Some [])] in
  let timeout := TransportError "ConnectionTimeout" in
  let parse_error := OtherError "parse error" in
  let w e := mkWorld ∅ [λ _, [Raise timeout]; λ _, [Raise e]; λ _, [Yield "e1"]] ∅ [] in
  let out e := run (Some rules) (w e) in
  ((out timeout).2 = Raised timeout
   ∧ length (backend (out timeout).1) = 1
   ∧ sleeps (trace (out timeout).1) = [15]
   ∧ commits (trace (out timeout).1) = [])
  ∧ ((out parse_error).2 = Raised parse_error
     ∧ length (backend (out parse_error).1) = 1
     ∧ sleeps (trace (out parse_error).1) = [15]
     ∧ commits (trace (out parse_error).1) = []).
Proof. vm_compute. by split_and!. Qed.

(** C3 (fails on the code). The claim: when the rule source yields no rules,
    empty or [None], [run] records a diagnostic, produces an empty summary
    and returns. When the rule source hands back [None], [run] logs the
    diagnostic and then raises at the loop over the rules, in every world.
    When it hands back the empty list, [run] returns the empty summary and
    leaves the world as it was: no diagnostic is logged. *)
Theorem C3_run_raises_on_missing_rules (w : World) :
  run None w
  = (emit (LogError "No  Sigma rules found. Check SIGMA_RULES_FOLDERS") w,
     Raised (TypeError "'NoneType' object is not iterable"))
  ∧ run (Some []) w = (w, Ok "Applied 0 tags").
Proof. split; reflexivity. Qed.

(** C4. Whenever [run] returns a summary, it is the line with the total, the
    sum of the counts recorded per rule, followed by the header and one
    bullet per fatally failed rule exactly when some rule failed fatally.
    A rule that fails fatally adds its bullet and the loop goes on with the
    rules after it. For rules A (two matched events, tag susp_proc), B (no
    event) and C (fails fatally at once) the summary is the three lines
    Applied 2 tags / Problematic rules: / * C. *)
Theorem C4_summary_string :
  (∀ (rules : list Rule) (w w' : World) (summary : string),
     run (Some rules) w = (w', Ok summary) →
     let h := history (length rules) rules init_state w in
     summary = String.concat nl
                 (summary_lines (sum_values (foldl record_outcome ∅ h)) (fatal_rules h)))
  ∧ (∀ (len : nat) (rule : Rule) (rest : list Rule) (st : RunState) (w : World),
       rule_outcome rule w = Fatal →
       ∃ w1 st1, rule_body len rule st w = (w1, Ok st1)
         ∧ problem_strings st1 = problem_strings st ++ [bullet (file_name rule)]
         ∧ rules_loop len (rule :: rest) st w = rules_loop len rest st1 w1)
  ∧ (∀ (w : World) (fa fb fc : string → list stream_step)
       (rest : list (string → list stream_step)) (qa qb qc e1 e2 : string) (e : exn)
       (tb tc : option (list string)),
       backend w = fa :: fb :: fc :: rest →
       fa qa = [Yield e1; Yield e2] → fb qb = [] → fc qc = [Raise e] →
       is_transport e = false →
       (run (Some [mkRule "A" qa (Some ["susp_proc"]); mkRule "B" qb tb; mkRule "C" qc tc]) w).2
       = Ok ("Applied 2 tags" +:+ nl +:+ "Problematic rules:" +:+ nl +:+ "* C")).
Proof.
  split_and!.
  - intros rules w w' summary Hrun h.
    apply run_Ok in Hrun as (w1 & st & Hloop & Hfin).
    apply rules_loop_history in Hloop as (_ & Hp & Ht & _).
    unfold finalize in Hfin. injection Hfin as _ <-.
    rewrite Ht, Hp. simpl. fold h. unfold summary_lines.
    rewrite length_fatal_bullets.
    by destruct (fatal_rules h).
  - intros len rule rest st w Ho.
    pose proof (rule_body_outcome len rule st w) as Hb. rewrite Ho in Hb.
    destruct Hb as (w1 & tl & Hb). eexists _, _. split; [exact Hb|]. split; [done|].
    simpl. by rewrite Hb.
  - intros w fa fb fc rest qa qb qc e1 e2 e tb tc Hback Ha Hb Hc He.
    unfold run, rules_loop, rule_body. cbn [es_query file_name tags length].
    rewrite (run_sigma_rule_backend _ _ _ _ _ _ Hback), Ha.
    destruct (events_loop_Some [Yield e1; Yield e2] "A" ["susp_proc"] 0 (set_backend (fb :: fc :: rest) w))
      as (w1 & l1 & E1 & _).
    rewrite E1. cbn [stream_error yielded length Nat.add].
    apply events_loop_frame in E1 as (_ & Hb1 & _). cbn [set_backend backend] in Hb1.
    cbn [sigma_rule_counter init_state Nat.modulo Nat.eqb].
    change (1 mod 10 =? 0) with false. cbv iota.
    cbn [es_query file_name tags sigma_rule_counter].
    rewrite (run_sigma_rule_backend _ _ _ _ _ _ Hb1), Hb. cbn [events_loop].
    change (2 mod 10 =? 0) with false. cbv iota.
    cbn [es_query file_name tags sigma_rule_counter set_backend backend store config trace].
    erewrite run_sigma_rule_backend by reflexivity. rewrite Hc. cbn [events_loop].
    rewrite He. unfold finalize. cbn [tags_applied problem_strings init_state].
    vm_compute sum_values. reflexivity.
Qed.

Lemma C4_summary_string_witness :
  (run (Some scenario_rules) scenario_world).2
  = Ok ("Applied 2 tags" +:+ nl +:+ "Problematic rules:" +:+ nl +:+ "* C")
  ∧ "Applied 2 tags" +:+ nl +:+ "Problematic rules:" +:+ nl +:+ "* C"
    = String.concat nl
        (summary_lines
           (sum_values (foldl record_outcome ∅
                          (history 3 scenario_rules init_state scenario_world)))
           (fatal_rules (history 3 scenario_rules init_state scenario_world)))
  ∧ rule_outcome (mkRule "C" "qc" (Some [])) failing_world = Fatal
  ∧ ∃ w1 st1,
      rule_body 3 (mkRule "C" "qc" (Some [])) init_state failing_world = (w1, Ok st1)
      ∧ problem_strings st1 = [] ++ [bullet "C"]
      ∧ rules_loop 3 [mkRule "C" "qc" (Some []); mkRule "B" "qb" (Some [])]
          init_state failing_world
        = rules_loop 3 [mkRule "B" "qb" (Some [])] st1 w1.
Proof.
  destruct C4_summary_string as (Hformat & Hcontinue & Hscenario).
  split_and!.
  - apply (Hscenario scenario_world (λ _, [Yield "e1"; Yield "e2"]) (λ _, [])
             (λ _, [Raise (OtherError "boom")]) [] "qa" "qb" "qc" "e1" "e2"
             (OtherError "boom")); reflexivity.
  - apply (Hformat scenario_rules scenario_world (run (Some scenario_rules) scenario_world).1).
    vm_compute. reflexivity.
  - vm_compute. reflexivity.
  - apply (Hcontinue 3 (mkRule "C" "qc" (Some [])) [mkRule "B" "qb" (Some [])]
             init_state failing_world).
    vm_compute. reflexivity.
Defined.

(** C5. Every value the loop body writes to [ts_sigma_rule] or [ts_ttp] is
    free of duplicates and contains what the event had before: the value of
    [ts_sigma_rule] is the prior identifiers plus the rule identifier, the
    value of [ts_ttp] is the prior tags plus the tags the loop collected.
    Across a whole run, with any outcome, both attributes of every event only
    gain elements and stay free of duplicates. *)
Theorem C5_reserved_attributes_grow :
  (∀ (rule_name : string) (tag_list : option (list string)) (id : string) (w w' : World)
     (tag_list' : option (list string)) (r : result unit) (id' key : string)
     (value : list string),
     tag_event rule_name tag_list (fetch id w) w = (w', tag_list', r) →
     AddAttributes id' key value ∈ new_calls w w' →
     id' = id ∧ (key = "ts_sigma_rule" ∨ key = "ts_ttp")
     ∧ NoDup value ∧ attr key id w ⊆ value
     ∧ (key = "ts_sigma_rule" →
        ∀ x, x ∈ value ↔ x ∈ attr "ts_sigma_rule" id w ∨ x = rule_name)
     ∧ (key = "ts_ttp" → ∀ l, tag_list = Some l →
        ∀ x, x ∈ value ↔ x ∈ (tag_loop (length l) 0 l (attr "ts_ttp" id w)).2))
  ∧ (∀ (sigma_rules : option (list Rule)) (w : World) (id : string),
       let w' := (run sigma_rules w).1 in
       attr "ts_sigma_rule" id w ⊆ attr "ts_sigma_rule" id w'
       ∧ attr "ts_ttp" id w ⊆ attr "ts_ttp" id w'
       ∧ (NoDup (attr "ts_sigma_rule" id w) → NoDup (attr "ts_sigma_rule" id w'))
       ∧ (NoDup (attr "ts_ttp" id w) → NoDup (attr "ts_ttp" id w'))).
Proof.
  split.
  - intros rule_name tag_list id w w' tag_list' r id' key value Hev Hin.
    destruct tag_list as [l|].
    + destruct (tag_event_Some rule_name l id w) as (w1 & E & _ & _ & Ht & _).
      rewrite E in Hev. injection Hev as <- _ _.
      rewrite (new_calls_app _ _ _ Ht) in Hin.
      destruct (tag_loop_ttp (length l) 0 l (attr "ts_ttp" id w)) as (moved & Hm & _).
      apply elem_of_app in Hin as [Hin|Hin].
      * apply elem_of_cons in Hin as [[= -> -> ->]|Hin].
        -- split_and!; [done|by left|apply NoDup_remove_dups| | |done].
           ++ intros x Hx. apply elem_of_remove_dups, elem_of_app. by left.
           ++ intros _ x. unfold list_set. rewrite elem_of_remove_dups, elem_of_app.
              by rewrite list_elem_of_singleton.
        -- apply list_elem_of_singleton in Hin. done.
      * apply elem_of_app in Hin as [Hin|Hin].
        -- destruct (0 <? _); [|by apply elem_of_nil in Hin].
           apply list_elem_of_singleton in Hin as [= -> -> ->].
           split_and!; [done|by right|apply NoDup_remove_dups| |done|].
           ++ intros x Hx. apply elem_of_remove_dups. rewrite Hm.
              apply elem_of_app. by left.
           ++ intros _ l0 [= <-] x. unfold list_set. by rewrite elem_of_remove_dups.
        -- apply list_elem_of_singleton in Hin. done.
    + rewrite tag_event_None in Hev. injection Hev as <- _ _.
      unfold new_calls in Hin. cbn [emit trace] in Hin. rewrite drop_app_length in Hin.
      apply list_elem_of_singleton in Hin as [= -> -> ->].
      split_and!; [done|by left|apply NoDup_remove_dups| | |done].
      * intros x Hx. apply elem_of_remove_dups, elem_of_app. by left.
      * intros _ x. unfold list_set. rewrite elem_of_remove_dups, elem_of_app.
        by rewrite list_elem_of_singleton.
  - intros sigma_rules w id w'.
    destruct (run sigma_rules w) as [w1 r] eqn:E. subst w'.
    apply run_frame in E as [_ Hs].
    destruct (Hs id "ts_sigma_rule") as [? ?]; [by left|].
    destruct (Hs id "ts_ttp") as [? ?]; [by right|]. done.
Qed.

Lemma C5_reserved_attributes_grow_witness :
  let w := mkWorld ∅ [] ∅ [] in
  let w' := (tag_event "rule" (Some ["attack.t1059"]) (fetch "e1" w) w).1.1 in
  tag_event "rule" (Some ["attack.t1059"]) (fetch "e1" w) w = (w', Some [], Ok ())
  ∧ AddAttributes "e1" "ts_ttp" ["attack.t1059"] ∈ new_calls w w'
  ∧ NoDup ["attack.t1059"]
  ∧ attr "ts_ttp" "e1" w ⊆ ["attack.t1059"].
Proof.
  intros w w'.
  assert (H1 : tag_event "rule" (Some ["attack.t1059"]) (fetch "e1" w) w = (w', Some [], Ok ()))
    by (vm_compute; reflexivity).
  assert (H2 : AddAttributes "e1" "ts_ttp" ["attack.t1059"] ∈ new_calls w w')
    by (vm_compute; do 2 apply list_elem_of_further; apply list_elem_of_here).
  destruct (proj1 C5_reserved_attributes_grow "rule" (Some ["attack.t1059"]) "e1" w w'
              (Some []) (Ok ()) "e1" "ts_ttp" ["attack.t1059"] H1 H2)
    as (_ & _ & Hnd & Hsub & _).
  split_and!; [exact H1|exact H2|exact Hnd|exact Hsub].
Defined.

(** C6. When the first execution of a rule raises a transport error and the
    retry returns [n], the iteration ends normally, the count recorded for
    the rule is [n], the problem list is unchanged, and exactly one sleep was
    added, of the duration configured under SIGMA_TAG_DELAY when the failure
    was handled, 15 by default. *)
Theorem C6_single_retry_after_cooldown (len : nat) (rule : Rule) (st : RunState)
    (w w1 w2 : World) (tl1 tl2 : option (list string)) (e : exn) (n : nat) :
  run_sigma_rule (es_query rule) (file_name rule) (tags rule) w = (w1, tl1, Raised e) →
  is_transport e = true →
  run_sigma_rule (es_query rule) (file_name rule) tl1 (cooldown rule e w1) = (w2, tl2, Ok n) →
  ∃ st', rule_body len rule st w = (w2, Ok st')
    ∧ tags_applied st' !! file_name rule = Some n
    ∧ problem_strings st' = problem_strings st
    ∧ sleeps (trace w2) = sleeps (trace w) ++ [default 15 (config w1 !! "SIGMA_TAG_DELAY")].
Proof.
  intros E1 He E2. unfold rule_body. rewrite E1, He, E2.
  eexists. split; [reflexivity|]. cbn [tags_applied problem_strings].
  split_and!; [|done|].
  - by rewrite dict_add_fresh, lookup_insert_eq.
  - apply run_sigma_rule_frame in E1 as (_ & Ht1 & _).
    apply run_sigma_rule_frame in E2 as (_ & Ht2 & _).
    rewrite (sleeps_trace_ext _ _ Ht2). unfold cooldown. cbn [emit trace].
    unfold sleeps. rewrite !omap_app. fold (sleeps (trace w1)).
    rewrite (sleeps_trace_ext _ _ Ht1). simpl. by rewrite app_nil_r.
Qed.

Lemma C6_single_retry_after_cooldown_witness :
  let first := run_sigma_rule "qa" "A" (Some ["susp_proc"]) retry_world in
  let second :=
    run_sigma_rule "qa" "A" first.1.2
      (cooldown retry_rule (TransportError "timeout") first.1.1) in
  first.2 = Raised (TransportError "timeout")
  ∧ second.2 = Ok 1
  ∧ ∃ st', rule_body 1 retry_rule init_state retry_world = (second.1.1, Ok st')
      ∧ tags_applied st' !! "A" = Some 1
      ∧ problem_strings st' = []
      ∧ sleeps (trace second.1.1) = [] ++ [30].
Proof.
  intros first second.
  split; [vm_compute; reflexivity|]. split; [vm_compute; reflexivity|].
  apply (C6_single_retry_after_cooldown 1 retry_rule init_state retry_world
           first.1.1 second.1.1 first.1.2 second.1.2 (TransportError "timeout") 1).
  - vm_compute. reflexivity.
  - reflexivity.
  - vm_compute. reflexivity.
Defined.

(** C7 (fails on the code). The claim: the tag list of a rule is unchanged by
    the run. For a rule with tags [attack.t1059; susp_cmd] and two matched
    events, the rule is left with the tag list [susp_cmd]; the second event,
    handled after the removal, gets no [ts_ttp] at all. *)
Theorem C7_rule_tag_list_is_mutated :
  let rule := mkRule "R" "q" (Some ["attack.t1059"; "susp_cmd"]) in
  let w := mkWorld ∅ [λ _, [Yield "e1"; Yield "e2"]] ∅ [] in
  ∃ w' st, rules_loop 1 [rule] init_state w = (w', Ok st)
    ∧ sigma_rules_seen st = [mkRule "R" "q" (Some ["susp_cmd"])]
    ∧ attr "ts_ttp" "e1" w' = ["attack.t1059"]
    ∧ attr "ts_ttp" "e2" w' = [].
Proof. eexists _, _. split; [vm_compute; reflexivity|]. vm_compute. by split_and!. Qed.

(** C8. When [run] returns, the loop has made no reporting call, and
    [add_sigma_match_view] has run, with the number of rules iterated, if and
    only if the total is positive. *)
Theorem C8_reporting_sink_trigger (rules : list Rule) (w w' : World) (summary : string) :
  run (Some rules) w = (w', Ok summary) →
  ∃ w1 st, rules_loop (length rules) rules init_state w = (w1, Ok st)
    ∧ reporting_calls (trace w1) = reporting_calls (trace w)
    ∧ sigma_rule_counter st = length rules
    ∧ w' = (if 0 <? sum_values (tags_applied st)
            then add_sigma_match_view (length rules) w1 else w1)
    ∧ (0 < sum_values (tags_applied st)
       ↔ reporting_calls (trace w') ≠ reporting_calls (trace w)).
Proof.
  intros Hrun. apply run_Ok in Hrun as (w1 & st & Hloop & Hfin).
  exists w1, st. split; [done|].
  pose proof Hloop as Hframe. apply rules_loop_frame in Hframe as (_ & Ht & _).
  apply reporting_calls_ext in Ht.
  apply rules_loop_history in Hloop as (Hc & _). simpl in Hc.
  unfold finalize in Hfin. injection Hfin as <- _. rewrite Hc.
  split_and!; [done|done|done|].
  destruct (0 <? _) eqn:Epos.
  - apply Nat.ltb_lt in Epos. split; [intros _|done].
    unfold add_sigma_match_view. cbn [emit trace]. unfold reporting_calls in *.
    rewrite !filter_app, Ht. simpl.
    intros Heq. apply (f_equal length) in Heq. rewrite !length_app in Heq. simpl in Heq. lia.
  - apply Nat.ltb_ge in Epos. split; [lia|]. by rewrite Ht.
Qed.

Lemma C8_reporting_sink_trigger_witness :
  let rules := [mkRule "A" "qa" (Some [])] in
  let w' := (run (Some rules) single_event_world).1 in
  run (Some rules) single_event_world = (w', Ok "Applied 1 tags")
  ∧ ∃ w1 st, rules_loop 1 rules init_state single_event_world = (w1, Ok st)
      ∧ reporting_calls (trace w1) = reporting_calls (trace single_event_world)
      ∧ sigma_rule_counter st = 1
      ∧ w' = (if 0 <? sum_values (tags_applied st)
              then add_sigma_match_view 1 w1 else w1)
      ∧ (0 < sum_values (tags_applied st)
         ↔ reporting_calls (trace w') ≠ reporting_calls (trace single_event_world)).
Proof.
  intros rules w'.
  assert (H : run (Some rules) single_event_world = (w', Ok "Applied 1 tags"))
    by (vm_compute; reflexivity).
  split; [exact H|].
  exact (C8_reporting_sink_trigger rules single_event_world w' "Applied 1 tags" H).
Defined.

(** C9. When the query yields at least one event and the tag list is [None],
    [run_sigma_rule] raises the type error of iterating [None]; with the
    empty tag list the same call counts the events of the stream. *)
Theorem C9_missing_tag_list_raises (query rule_name : string) (w : World)
    (answer : string → list stream_step) (rest : list (string → list stream_step))
    (id : string) (events : list stream_step) :
  backend w = answer :: rest →
  answer query = Yield id :: events →
  (run_sigma_rule query rule_name None w).2
  = Raised (TypeError "'NoneType' object is not iterable")
  ∧ (run_sigma_rule query rule_name (Some []) w).2
    = match stream_error events with
      | None => Ok (S (length (yielded events)))
      | Some e => Raised e
      end.
Proof.
  intros Hb Ha. rewrite !(run_sigma_rule_backend _ _ _ _ _ _ Hb), Ha. split.
  - cbn [events_loop]. by rewrite tag_event_None.
  - destruct (events_loop_Some (Yield id :: events) rule_name [] 0 (set_backend rest w))
      as (w' & l' & -> & _).
    done.
Qed.

Lemma C9_missing_tag_list_raises_witness :
  backend single_event_world = (λ _, [Yield "e1"]) :: []
  ∧ (run_sigma_rule "q" "rule" None single_event_world).2
    = Raised (TypeError "'NoneType' object is not iterable")
  ∧ (run_sigma_rule "q" "rule" (Some []) single_event_world).2 = Ok 1.
Proof.
  split; [reflexivity|].
  exact (C9_missing_tag_list_raises "q" "rule" single_event_world (λ _, [Yield "e1"]) []
           "e1" [] eq_refl eq_refl).
Defined.




(** ** Further properties of the tag loop, the executions and the run *)

Lemma list_remove_perm (x : string) (l : list string) :
  x ∈ l → l ≡ₚ x :: list_remove x l.
Proof.
  induction l as [|y l IH]; intros Hin.
  - by apply elem_of_nil in Hin.
  - simpl. destruct (String.eqb x y) eqn:E.
    + apply String.eqb_eq in E. by subst.
    + apply String.eqb_neq in E. apply elem_of_cons in Hin as [->|Hin]; [done|].
      rewrite (IH Hin) at 1. apply Permutation_swap.
Qed.

Lemma list_remove_sublist (x : string) (l : list string) :
  list_remove x l `sublist_of` l.
Proof.
  induction l as [|y l IH]; simpl; [done|].
  destruct (String.eqb x y); [by apply sublist_cons|by apply sublist_skip].
Qed.

Lemma list_remove_ordinary (x : string) (l : list string) :
  is_ttp x = true → ordinary_tags (list_remove x l) = ordinary_tags l.
Proof.
  intros Hx. unfold ordinary_tags. induction l as [|y l IH]; simpl; [done|].
  destruct (String.eqb x y) eqn:E.
  - apply String.eqb_eq in E. subst y. rewrite filter_cons.
    case_decide as Hd; [congruence|done].
  - rewrite !filter_cons. case_decide; by rewrite IH.
Qed.

(** Whatever the index and the fuel, the loop splits the list: what it moves
    are technique tags, what it leaves and what it moves make up the list, and
    every ordinary tag is left in place. *)
Lemma tag_loop_partition (fuel i : nat) (tag_list ts_ttp : list string) :
  ∃ moved,
    (tag_loop fuel i tag_list ts_ttp).2 = ts_ttp ++ moved
    ∧ tag_list ≡ₚ (tag_loop fuel i tag_list ts_ttp).1 ++ moved
    ∧ Forall (λ tag, is_ttp tag = true) moved
    ∧ ordinary_tags (tag_loop fuel i tag_list ts_ttp).1 = ordinary_tags tag_list
    ∧ (tag_loop fuel i tag_list ts_ttp).1 `sublist_of` tag_list.
Proof.
  revert i tag_list ts_ttp.
  induction fuel as [|fuel IH]; intros i l t; simpl.
  - exists []. rewrite !app_nil_r. split_and!; [done|done|constructor|done|done].
  - destruct (l !! i) as [tag|] eqn:El.
    + destruct (is_ttp tag) eqn:Et.
      * destruct (IH (S i) (list_remove tag l) (t ++ [tag]))
          as (moved & Hm & Hp & Hf & Ho & Hs).
        exists (tag :: moved). split_and!.
        -- by rewrite Hm, <- app_assoc.
        -- etrans; [apply (list_remove_perm tag); by eapply list_elem_of_lookup_2|].
           etrans; [apply perm_skip, Hp|]. apply Permutation_middle.
        -- by constructor.
        -- by rewrite Ho, list_remove_ordinary.
        -- etrans; [exact Hs|apply list_remove_sublist].
      * apply IH.
    + exists []. rewrite !app_nil_r. split_and!; [done|done|constructor|done|done].
Qed.

Lemma list_remove_middle (x : string) (pre rest : list string) :
  x ∉ pre → list_remove x (pre ++ x :: rest) = pre ++ rest.
Proof.
  induction pre as [|y pre IH]; intros Hnotin; simpl.
  - by rewrite String.eqb_refl.
  - apply not_elem_of_cons in Hnotin as [Hne Hnotin].
    apply String.eqb_neq in Hne. rewrite Hne. by rewrite IH.
Qed.

Lemma tag_loop_past_end (fuel i : nat) (tag_list ts_ttp : list string) :
  length tag_list ≤ i → tag_loop fuel i tag_list ts_ttp = (tag_list, ts_ttp).
Proof.
  intros Hi. destruct fuel; [done|]. simpl. by rewrite lookup_ge_None_2.
Qed.

Lemma no_adjacent_ttp_tail (a : string) (rest : list string) :
  no_adjacent_ttp (a :: rest) = true → no_adjacent_ttp rest = true.
Proof.
  destruct rest as [|b rest]; [done|]. cbn [no_adjacent_ttp].
  intros H. by apply andb_prop in H as [_ H].
Qed.

(** The loop at index [length pre], with only ordinary tags before the index
    and no two neighbouring technique tags after it. *)
Lemma tag_loop_no_adjacent (fuel : nat) (pre suf ts_ttp : list string) :
  Forall (λ tag, is_ttp tag = false) pre →
  no_adjacent_ttp suf = true →
  length suf ≤ fuel →
  tag_loop fuel (length pre) (pre ++ suf) ts_ttp
  = (pre ++ ordinary_tags suf, ts_ttp ++ ttp_tags suf).
Proof.
  revert pre suf ts_ttp.
  induction fuel as [|fuel IH]; intros pre suf t Hpre Hadj Hlen.
  - destruct suf; [|simpl in Hlen; lia]. simpl. by rewrite !app_nil_r.
  - destruct suf as [|a rest].
    + rewrite tag_loop_past_end by (rewrite length_app; simpl; lia).
      simpl. by rewrite !app_nil_r.
    + cbn [tag_loop]. rewrite (list_lookup_middle pre rest a (length pre) eq_refl).
      unfold ordinary_tags, ttp_tags. rewrite !filter_cons.
      destruct (is_ttp a) eqn:Ea.
      * rewrite list_remove_middle.
        2:{ intros Hin. rewrite Forall_forall in Hpre. apply Hpre in Hin. congruence. }
        rewrite (decide_False (P := true = false)) by done.
        rewrite (decide_True (P := true = true)) by done.
        destruct rest as [|b rest].
        -- rewrite tag_loop_past_end by (rewrite length_app; simpl; lia).
           by rewrite !app_nil_r.
        -- assert (Eb : is_ttp b = false).
           { cbn [no_adjacent_ttp] in Hadj. apply andb_prop in Hadj as [Hab _].
             rewrite Ea in Hab. by destruct (is_ttp b). }
           replace (S (length pre)) with (length (pre ++ [b])) by (rewrite length_app; simpl; lia).
           replace (pre ++ b :: rest) with ((pre ++ [b]) ++ rest) by (by rewrite <- app_assoc).
           rewrite IH.
           ++ rewrite !filter_cons, Eb.
              rewrite (decide_True (P := false = false)) by done.
              rewrite (decide_False (P := false = true)) by done.
              fold (ordinary_tags rest) (ttp_tags rest). by rewrite <- !app_assoc.
           ++ apply Forall_app. split; [done|by constructor].
           ++ by do 2 apply no_adjacent_ttp_tail in Hadj.
           ++ simpl in Hlen. lia.
      * rewrite (decide_True (P := false = false)) by done.
        rewrite (decide_False (P := false = true)) by done.
        replace (S (length pre)) with (length (pre ++ [a])) by (rewrite length_app; simpl; lia).
        replace (pre ++ a :: rest) with ((pre ++ [a]) ++ rest) by (by rewrite <- app_assoc).
        rewrite IH.
        -- fold (ordinary_tags rest) (ttp_tags rest). by rewrite <- !app_assoc.
        -- apply Forall_app. split; [done|by constructor].
        -- by apply no_adjacent_ttp_tail in Hadj.
        -- simpl in Hlen. lia.
Qed.

Lemma tag_loop_entry_no_adjacent (tag_list ts_ttp : list string) :
  no_adjacent_ttp tag_list = true →
  tag_loop (length tag_list) 0 tag_list ts_ttp
  = (ordinary_tags tag_list, ts_ttp ++ ttp_tags tag_list).
Proof.
  intros Hadj. apply (tag_loop_no_adjacent (length tag_list) [] tag_list ts_ttp); done.
Qed.

(** X2. When no two neighbours of the tag list are both technique tags, the
    loop moves every technique tag, in order, and leaves exactly the ordinary
    tags. *)
Theorem X2_tag_loop_without_adjacent_ttp (tag_list ts_ttp : list string) :
  no_adjacent_ttp tag_list = true →
  tag_loop (length tag_list) 0 tag_list ts_ttp
  = (ordinary_tags tag_list, ts_ttp ++ ttp_tags tag_list).
Proof. apply tag_loop_entry_no_adjacent. Qed.

Lemma X2_tag_loop_without_adjacent_ttp_witness :
  no_adjacent_ttp spaced_tag_list = true
  ∧ tag_loop 3 0 spaced_tag_list [] = (["susp_cmd"], ["attack.t1059"; "car.2013"]).
Proof.
  split; [reflexivity|].
  exact (X2_tag_loop_without_adjacent_ttp spaced_tag_list [] eq_refl).
Defined.

(** X1. The loop over the tag list never loses or duplicates a tag: the tags
    it appends to [ts_ttp] are technique tags, together with the list it
    leaves they are a permutation of the input, every ordinary tag stays in
    the list in its order, and the list left is a sublist of the input. *)
Theorem X1_tag_loop_partitions (tag_list ts_ttp : list string) :
  ∃ moved,
    (tag_loop (length tag_list) 0 tag_list ts_ttp).2 = ts_ttp ++ moved
    ∧ tag_list ≡ₚ (tag_loop (length tag_list) 0 tag_list ts_ttp).1 ++ moved
    ∧ Forall (λ tag, is_ttp tag = true) moved
    ∧ ordinary_tags (tag_loop (length tag_list) 0 tag_list ts_ttp).1 = ordinary_tags tag_list
    ∧ (tag_loop (length tag_list) 0 tag_list ts_ttp).1 `sublist_of` tag_list.
Proof. apply tag_loop_partition. Qed.

(** X3. The loop over the tag list ends within as many iterations as the list
    has elements when the loop starts: more iterations change nothing. *)
Theorem X3_tag_loop_needs_no_more_iterations (tag_list ts_ttp : list string) (extra : nat) :
  tag_loop (length tag_list + extra) 0 tag_list ts_ttp
  = tag_loop (length tag_list) 0 tag_list ts_ttp.
Proof. apply tag_loop_fuel; lia. Qed.

Lemma ordinary_no_adjacent (l : list string) :
  Forall (λ tag, is_ttp tag = false) l →
  no_adjacent_ttp l = true ∧ ordinary_tags l = l ∧ ttp_tags l = [].
Proof.
  induction 1 as [|a l Ha _ (IH1 & IH2 & IH3)]; [done|].
  split_and!.
  - destruct l as [|b l]; [done|].
    change (no_adjacent_ttp (a :: b :: l))
      with (negb (is_ttp a && is_ttp b) && no_adjacent_ttp (b :: l)).
    by rewrite Ha, IH1.
  - unfold ordinary_tags in *. rewrite filter_cons, decide_True by done. by rewrite IH2.
  - unfold ttp_tags in *. rewrite filter_cons, decide_False by congruence. done.
Qed.

Lemma ordinary_tags_ordinary (l : list string) :
  Forall (λ tag, is_ttp tag = false) (ordinary_tags l).
Proof.
  apply Forall_forall. intros x Hx. unfold ordinary_tags in Hx.
  by apply list_elem_of_filter in Hx as [? _].
Qed.

Lemma same_elements_list_set (l : list string) : same_elements (list_set l) l.
Proof. intros x. apply elem_of_remove_dups. Qed.

(** X4. For a tag list without two neighbouring technique tags, the loop body
    succeeds, hands exactly the ordinary tags to [add_tags], leaves them as
    the tag list, and the event's [ts_ttp] then holds what it held before
    and every technique tag of the list. *)
Theorem X4_tag_event_without_adjacent_ttp (rule_name : string) (tag_list : list string)
    (id : string) (w : World) :
  no_adjacent_ttp tag_list = true →
  ∃ w',
    tag_event rule_name (Some tag_list) (fetch id w) w
    = (w', Some (ordinary_tags tag_list), Ok ())
    ∧ AddTags id (ordinary_tags tag_list) ∈ new_calls w w'
    ∧ (∀ x, x ∈ attr "ts_ttp" id w'
            ↔ x ∈ attr "ts_ttp" id w ∨ (x ∈ tag_list ∧ is_ttp x = true)).
Proof.
  intros Hadj.
  destruct (tag_event_Some rule_name tag_list id w) as (w' & E & _ & _ & Ht & _ & _ & Http).
  rewrite (tag_loop_entry_no_adjacent _ _ Hadj) in E, Ht, Http.
  cbn [fst snd] in E, Ht, Http.
  exists w'. split_and!; [done| |].
  - rewrite (new_calls_app _ _ _ Ht). apply elem_of_app. left.
    apply list_elem_of_further, list_elem_of_here.
  - intros x. rewrite Http.
    assert (Hin : x ∈ attr "ts_ttp" id w ++ ttp_tags tag_list
                  ↔ x ∈ attr "ts_ttp" id w ∨ (x ∈ tag_list ∧ is_ttp x = true)).
    { rewrite elem_of_app. unfold ttp_tags. rewrite list_elem_of_filter. tauto. }
    destruct (0 <? _) eqn:Epos.
    + unfold list_set. by rewrite elem_of_remove_dups.
    + apply Nat.ltb_ge in Epos. rewrite length_app in Epos.
      assert (ttp_tags tag_list = []) as Hnil by (apply length_zero_iff_nil; lia).
      rewrite Hnil, app_nil_r in Hin. done.
Qed.

Lemma X4_tag_event_without_adjacent_ttp_witness :
  no_adjacent_ttp spaced_tag_list = true
  ∧ ∃ w',
      tag_event "rule" (Some spaced_tag_list) (fetch "e1" empty_world) empty_world
      = (w', Some (ordinary_tags spaced_tag_list), Ok ())
      ∧ AddTags "e1" (ordinary_tags spaced_tag_list) ∈ new_calls empty_world w'
      ∧ (∀ x, x ∈ attr "ts_ttp" "e1" w'
              ↔ x ∈ attr "ts_ttp" "e1" empty_world
                ∨ (x ∈ spaced_tag_list ∧ is_ttp x = true)).
Proof.
  split; [reflexivity|].
  exact (X4_tag_event_without_adjacent_ttp "rule" spaced_tag_list "e1" empty_world eq_refl).
Defined.

Lemma attr_store_eq (key id : string) (w w' : World) :
  store w' !! id = store w !! id → attr key id w' = attr key id w.
Proof. intros H. unfold attr. by rewrite H. Qed.

Lemma events_loop_store_frame (events : list stream_step) (rule_name : string)
    (tag_list : option (list string)) (n : nat) (w w' : World)
    (tag_list' : option (list string)) (r : result nat) (id : string) :
  events_loop events rule_name tag_list n w = (w', tag_list', r) →
  id ∉ yielded events →
  store w' !! id = store w !! id.
Proof.
  revert tag_list n w.
  induction events as [|[id0|e] events IH]; intros tag_list n w; cbn [events_loop yielded].
  - by intros [= <- _ _] _.
  - intros E Hnotin. apply not_elem_of_cons in Hnotin as [Hne Hnotin].
    destruct tag_list as [l|].
    + destruct (tag_event_Some rule_name l id0 w) as (w1 & E1 & _ & _ & _ & Hs & _).
      rewrite E1 in E. apply IH in E; [|done]. rewrite E. by apply Hs.
    + rewrite tag_event_None in E. by injection E as <- _ _.
  - by intros [= <- _ _] _.
Qed.

(** X5. An execution of a rule leaves every stored event that its query did
    not yield as it was, whatever the tag list and however the execution
    ends. *)
Theorem X5_only_matched_events_are_written (query rule_name : string)
    (tag_list : option (list string)) (w : World) (id : string) :
  id ∉ yielded (event_stream query w).1 →
  store (run_sigma_rule query rule_name tag_list w).1.1 !! id = store w !! id.
Proof.
  unfold run_sigma_rule, event_stream.
  destruct (backend w) as [|answer rest]; cbn [fst snd]; intros Hnotin.
  - done.
  - destruct (events_loop _ _ _ _ _) as [[w' tl] r] eqn:E.
    by apply (events_loop_store_frame _ _ _ _ _ _ _ _ id) in E.
Qed.

Lemma X5_only_matched_events_are_written_witness :
  ("e2" ∉ yielded (event_stream "q" single_event_world).1)
  ∧ store (run_sigma_rule "q" "rule" (Some ["susp_cmd"]) single_event_world).1.1 !! "e2"
    = store single_event_world !! "e2".
Proof.
  assert (H : "e2" ∉ yielded (event_stream "q" single_event_world).1).
  { vm_compute. intros Hin. apply list_elem_of_singleton in Hin. discriminate Hin. }
  split; [exact H|].
  exact (X5_only_matched_events_are_written "q" "rule" (Some ["susp_cmd"])
           single_event_world "e2" H).
Defined.

(** X6. With a tag list, an execution ends as its stream ends: it returns the
    number of yielded events, or raises the exception of the stream; in both
    cases every event yielded before the end has been committed once, so a
    failing execution keeps what it tagged. *)
Theorem X6_execution_follows_its_stream (query rule_name : string)
    (tag_list : list string) (w : World) :
  (run_sigma_rule query rule_name (Some tag_list) w).2
  = match stream_error (event_stream query w).1 with
    | None => Ok (length (yielded (event_stream query w).1))
    | Some e => Raised e
    end
  ∧ commits (trace (run_sigma_rule query rule_name (Some tag_list) w).1.1)
    = commits (trace w) ++ yielded (event_stream query w).1.
Proof.
  unfold run_sigma_rule, event_stream.
  destruct (backend w) as [|answer rest]; cbn [fst snd].
  - by rewrite app_nil_r.
  - destruct (events_loop_Some (answer query) rule_name tag_list 0 (set_backend rest w))
      as (w' & l' & -> & Hc).
    done.
Qed.

(** X7. Without a tag list an execution never commits and leaves the store as
    it was: it returns 0 for an empty stream, raises the type error at the
    first yielded event, and raises the exception of a stream that fails at
    once. *)
Theorem X7_missing_tag_list_commits_nothing (query rule_name : string) (w : World) :
  store (run_sigma_rule query rule_name None w).1.1 = store w
  ∧ commits (trace (run_sigma_rule query rule_name None w).1.1) = commits (trace w)
  ∧ (run_sigma_rule query rule_name None w).2
    = match (event_stream query w).1 with
      | [] => Ok 0
      | Yield _ :: _ => Raised (TypeError "'NoneType' object is not iterable")
      | Raise e :: _ => Raised e
      end.
Proof.
  unfold run_sigma_rule, event_stream.
  destruct (backend w) as [|answer rest]; cbn [fst snd]; [done|].
  destruct (answer query) as [|[id|e] events]; cbn [events_loop]; [done| |done].
  rewrite tag_event_None. cbn [fst snd emit store trace set_backend].
  split_and!; [done| |done].
  unfold commits. rewrite omap_app. simpl. by rewrite app_nil_r.
Qed.

Lemma events_loop_tag_list (events : list stream_step) (rule_name : string)
    (l : list string) (n : nat) (w : World) :
  ∃ l', (events_loop events rule_name (Some l) n w).1.2 = Some l'
    ∧ l' `sublist_of` l ∧ ordinary_tags l' = ordinary_tags l.
Proof.
  revert l n w.
  induction events as [|[id|e] events IH]; intros l n w; cbn [events_loop].
  - by exists l.
  - destruct (tag_event_Some rule_name l id w) as (w1 & -> & _).
    destruct (tag_loop_partition (length l) 0 l (attr "ts_ttp" id w))
      as (moved & _ & _ & _ & Ho & Hs).
    destruct (IH (tag_loop (length l) 0 l (attr "ts_ttp" id w)).1 (S n) w1)
      as (l' & E & Hs' & Ho').
    exists l'. split_and!; [done|by etrans|congruence].
  - by exists l.
Qed.

(** X8. Over a whole execution the tag list of the rule only loses technique
    tags: what is left is a sublist of the list supplied, with the same
    ordinary tags. *)
Theorem X8_tag_list_only_loses_ttp_tags (query rule_name : string)
    (tag_list : list string) (w : World) :
  ∃ tag_list',
    (run_sigma_rule query rule_name (Some tag_list) w).1.2 = Some tag_list'
    ∧ tag_list' `sublist_of` tag_list
    ∧ ordinary_tags tag_list' = ordinary_tags tag_list.
Proof.
  unfold run_sigma_rule, event_stream.
  destruct (backend w) as [|answer rest]; apply events_loop_tag_list.
Qed.

Lemma events_loop_ordinary (events : list stream_step) (rule_name : string)
    (l : list string) (n : nat) (w : World) :
  Forall (λ tag, is_ttp tag = false) l →
  (events_loop events rule_name (Some l) n w).1.2 = Some l
  ∧ ∀ id, same_elements (attr "ts_ttp" id (events_loop events rule_name (Some l) n w).1.1)
                       (attr "ts_ttp" id w).
Proof.
  intros Hord. destruct (ordinary_no_adjacent l Hord) as (Hadj & Hol & Htl).
  revert n w.
  induction events as [|[id0|e] events IH]; intros n w; cbn [events_loop].
  - done.
  - destruct (tag_event_Some rule_name l id0 w) as (w1 & -> & _ & _ & _ & Hs & _ & Http).
    rewrite (tag_loop_entry_no_adjacent _ _ Hadj) in Http |- *.
    rewrite Hol, Htl, app_nil_r in *. cbn [fst snd] in *.
    destruct (IH (S n) w1) as [-> Hsame]. split; [done|].
    intros id x. rewrite (Hsame id x).
    destruct (decide (id = id0)) as [->|Hne].
    + rewrite Http. destruct (0 <? _); [|done]. apply same_elements_list_set.
    + by rewrite (attr_store_eq _ _ _ _ (Hs id Hne)).
  - done.
Qed.

(** X9. For a tag list without two neighbouring technique tags and a query
    that yields at least one event, the execution leaves the ordinary tags
    as the tag list, and only the first yielded event can gain technique
    tags: [ts_ttp] of every other event keeps its elements. *)
Theorem X9_only_first_event_gains_ttp_tags (query rule_name : string)
    (tag_list : list string) (w : World) (id1 : string) (events : list stream_step) :
  no_adjacent_ttp tag_list = true →
  (event_stream query w).1 = Yield id1 :: events →
  (run_sigma_rule query rule_name (Some tag_list) w).1.2 = Some (ordinary_tags tag_list)
  ∧ ∀ id, id ≠ id1 →
      same_elements (attr "ts_ttp" id (run_sigma_rule query rule_name (Some tag_list) w).1.1)
                    (attr "ts_ttp" id w).
Proof.
  intros Hadj. unfold run_sigma_rule, event_stream.
  destruct (backend w) as [|answer rest]; cbn [fst snd]; [done|].
  intros ->. cbn [events_loop].
  destruct (tag_event_Some rule_name tag_list id1 (set_backend rest w))
    as (w1 & -> & _ & _ & _ & Hs & _).
  rewrite (tag_loop_entry_no_adjacent _ _ Hadj). cbn [fst snd].
  destruct (events_loop_ordinary events rule_name (ordinary_tags tag_list) 1 w1
              (ordinary_tags_ordinary tag_list)) as [-> Hsame].
  split; [done|]. intros id Hne x. rewrite (Hsame id x).
  by rewrite (attr_store_eq _ _ _ _ (Hs id Hne)).
Qed.

Lemma X9_only_first_event_gains_ttp_tags_witness :
  let w := mkWorld ∅ [λ _, [Yield "e1"; Yield "e2"]] ∅ [] in
  no_adjacent_ttp spaced_tag_list = true
  ∧ (event_stream "q" w).1 = Yield "e1" :: [Yield "e2"]
  ∧ (run_sigma_rule "q" "rule" (Some spaced_tag_list) w).1.2
    = Some (ordinary_tags spaced_tag_list)
  ∧ ∀ id, id ≠ "e1" →
      same_elements
        (attr "ts_ttp" id (run_sigma_rule "q" "rule" (Some spaced_tag_list) w).1.1)
        (attr "ts_ttp" id w).
Proof.
  intros w. split; [reflexivity|]. split; [reflexivity|].
  exact (X9_only_first_event_gains_ttp_tags "q" "rule" spaced_tag_list w "e1" [Yield "e2"]
           eq_refl eq_refl).
Defined.

Lemma sleeps_app (t1 t2 : list call) : sleeps (t1 ++ t2) = sleeps t1 ++ sleeps t2.
Proof. apply omap_app. Qed.

Lemma commits_app (t1 t2 : list call) : commits (t1 ++ t2) = commits t1 ++ commits t2.
Proof. apply omap_app. Qed.

Lemma rule_body_sleeps (len : nat) (rule : Rule) (st : RunState) (w : World) :
  sleeps (trace (rule_body len rule st w).1)
  = sleeps (trace w)
    ++ match (run_sigma_rule (es_query rule) (file_name rule) (tags rule) w).2 with
       | Raised e =>
         if is_transport e then [default 15 (config w !! "SIGMA_TAG_DELAY")] else []
       | Ok _ => []
       end.
Proof.
  unfold rule_body.
  destruct (run_sigma_rule _ _ (tags rule) w) as [[w1 tl1] [n|e]] eqn:E1;
    apply run_sigma_rule_frame in E1 as (Hc1 & Ht1 & _);
    apply sleeps_trace_ext in Ht1; cbn [fst snd].
  - rewrite app_nil_r. destruct (_ =? _); cbn [emit trace]; [|done].
    by rewrite sleeps_app, Ht1, app_nil_r.
  - destruct (is_transport e).
    + destruct (run_sigma_rule _ _ tl1 _) as [[w2 tl2] r2] eqn:E2.
      apply run_sigma_rule_frame in E2 as (_ & Ht2 & _).
      apply sleeps_trace_ext in Ht2.
      assert (sleeps (trace w2)
              = sleeps (trace w) ++ [default 15 (config w !! "SIGMA_TAG_DELAY")]) as Hs.
      { rewrite Ht2. unfold cooldown. cbn [emit trace].
        rewrite !sleeps_app, Ht1, Hc1. simpl. by rewrite app_nil_r. }
      by destruct r2.
    + cbn [emit trace fst]. by rewrite sleeps_app, Ht1.
Qed.

(** X10. One iteration of the rule loop sleeps exactly once, for the
    configured duration, when the first execution raises a transport error,
    and never otherwise, whatever the retry does. *)
Theorem X10_one_sleep_per_transport_error (len : nat) (rule : Rule) (st : RunState)
    (w : World) :
  sleeps (trace (rule_body len rule st w).1)
  = sleeps (trace w)
    ++ match (run_sigma_rule (es_query rule) (file_name rule) (tags rule) w).2 with
       | Raised e =>
         if is_transport e then [default 15 (config w !! "SIGMA_TAG_DELAY")] else []
       | Ok _ => []
       end.
Proof. apply rule_body_sleeps. Qed.

Lemma rules_loop_sleeps (len : nat) (rules : list Rule) (st : RunState) (w : World) :
  length (sleeps (trace (rules_loop len rules st w).1))
  ≤ length (sleeps (trace w)) + length rules.
Proof.
  revert st w. induction rules as [|rule rules IH]; intros st w; cbn [rules_loop length].
  - simpl. lia.
  - pose proof (rule_body_sleeps len rule st w) as Hs.
    assert (length (sleeps (trace (rule_body len rule st w).1))
            ≤ S (length (sleeps (trace w)))) as Hle.
    { rewrite Hs, length_app.
      destruct (run_sigma_rule _ _ _ _).2 as [n|e]; [simpl; lia|].
      destruct (is_transport e); simpl; lia. }
    destruct (rule_body len rule st w) as [w1 [st1|e]]; cbn [fst] in *.
    + specialize (IH st1 w1). lia.
    + lia.
Qed.

(** X11. A run sleeps at most once per rule, and not at all without rules. *)
Theorem X11_at_most_one_sleep_per_rule (sigma_rules : option (list Rule)) (w : World) :
  length (sleeps (trace (run sigma_rules w).1))
  ≤ length (sleeps (trace w)) + length (default [] sigma_rules).
Proof.
  unfold run. destruct sigma_rules as [rules|]; cbn [default].
  - pose proof (rules_loop_sleeps (length rules) rules init_state w) as Hs.
    destruct (rules_loop _ _ _ _) as [w1 [st|e]]; cbn [fst] in *; [|done].
    unfold finalize. destruct (0 <? _); cbn [fst]; [|done].
    unfold add_sigma_match_view. cbn [emit trace]. by rewrite !sleeps_app, !app_nil_r.
  - cbn [fst emit trace]. rewrite sleeps_app, app_nil_r. simpl. lia.
Qed.

Lemma rules_loop_escape (len : nat) (rules : list Rule) (st : RunState) (w : World) :
  match (rules_loop len rules st w).2 with
  | Ok _ => Forall not_escaped (history len rules st w)
  | Raised e =>
    ∃ h0 name, history len rules st w = h0 ++ [(name, Escaped e)] ∧ Forall not_escaped h0
  end.
Proof.
  revert st w. induction rules as [|rule rules IH]; intros st w; cbn [rules_loop history].
  - constructor.
  - pose proof (rule_body_outcome len rule st w) as Ho.
    destruct (rule_outcome rule w) as [n| |e] eqn:Eo.
    + destruct Ho as (w1 & tl & ->).
      match goal with |- context [rules_loop len rules ?s w1] => specialize (IH s w1) end.
      destruct (rules_loop _ _ _ _).2 as [st'|e].
      * constructor; [by intros e|exact IH].
      * destruct IH as (h0 & name & -> & Hf). exists ((file_name rule, Tagged n) :: h0), name.
        split; [done|]. constructor; [by intros e'|done].
    + destruct Ho as (w1 & tl & ->).
      match goal with |- context [rules_loop len rules ?s w1] => specialize (IH s w1) end.
      destruct (rules_loop _ _ _ _).2 as [st'|e].
      * constructor; [by intros e|exact IH].
      * destruct IH as (h0 & name & -> & Hf). exists ((file_name rule, Fatal) :: h0), name.
        split; [done|]. constructor; [by intros e'|done].
    + destruct Ho as (w1 & ->). cbn [snd]. exists [], (file_name rule). split; [done|constructor].
Qed.

Lemma run_result (rules : list Rule) (w : World) :
  match (run (Some rules) w).2 with
  | Ok _ => ∃ st, (rules_loop (length rules) rules init_state w).2 = Ok st
  | Raised e => (rules_loop (length rules) rules init_state w).2 = Raised e
  end.
Proof.
  unfold run. destruct (rules_loop _ _ _ _) as [w1 [st|e]]; cbn [snd]; [|done].
  destruct (finalize st w1). cbn [snd]. eauto.
Qed.

(** X12. A run over a list of rules raises [e] exactly when some rule first
    raised a transport error and its retry raised [e]. *)
Theorem X12_run_raises_only_after_failed_retry (rules : list Rule) (w : World) (e : exn) :
  (run (Some rules) w).2 = Raised e
  ↔ ∃ name, (name, Escaped e) ∈ history (length rules) rules init_state w.
Proof.
  pose proof (run_result rules w) as Hrun.
  pose proof (rules_loop_escape (length rules) rules init_state w) as Hesc.
  split.
  - intros Hr. rewrite Hr in Hrun. rewrite Hrun in Hesc.
    destruct Hesc as (h0 & name & -> & _). exists name.
    apply elem_of_app. right. apply list_elem_of_here.
  - intros (name & Hin). destruct (run _ _).2 as [s|e'].
    + destruct Hrun as (st & Hrun). rewrite Hrun in Hesc.
      rewrite Forall_forall in Hesc. by destruct (Hesc _ Hin e).
    + rewrite Hrun in Hesc. destruct Hesc as (h0 & name' & Hh & Hf).
      rewrite Hh in Hin. apply elem_of_app in Hin as [Hin|Hin].
      * rewrite Forall_forall in Hf. by destruct (Hf _ Hin e).
      * apply list_elem_of_singleton in Hin. by injection Hin as _ ->.
Qed.

Lemma X12_run_raises_only_after_failed_retry_witness :
  let rules := [mkRule "A" "qa" (Some [])] in
  let w := mkWorld ∅ [λ _, [Raise (TransportError "timeout")];
                      λ _, [Raise (OtherError "boom")]] ∅ [] in
  (run (Some rules) w).2 = Raised (OtherError "boom")
  ∧ ∃ name, (name, Escaped (OtherError "boom")) ∈ history (length rules) rules init_state w.
Proof.
  intros rules w.
  assert (H : (run (Some rules) w).2 = Raised (OtherError "boom"))
    by (vm_compute; reflexivity).
  split; [exact H|].
  exact (proj1 (X12_run_raises_only_after_failed_retry rules w (OtherError "boom")) H).
Defined.

(** X13. A run that raises has made no reporting call. *)
Theorem X13_failed_run_reports_nothing (sigma_rules : option (list Rule)) (w : World)
    (e : exn) :
  (run sigma_rules w).2 = Raised e →
  reporting_calls (trace (run sigma_rules w).1) = reporting_calls (trace w).
Proof.
  unfold run. destruct sigma_rules as [rules|].
  - destruct (rules_loop _ _ _ _) as [w1 [st|e']] eqn:E.
    + destruct (finalize st w1). done.
    + intros _. cbn [fst]. apply rules_loop_frame in E as (_ & Ht & _).
      by apply reporting_calls_ext.
  - intros _. cbn [fst emit trace]. unfold reporting_calls.
    rewrite filter_app. simpl. by rewrite app_nil_r.
Qed.

Lemma X13_failed_run_reports_nothing_witness :
  (run None single_event_world).2 = Raised (TypeError "'NoneType' object is not iterable")
  ∧ reporting_calls (trace (run None single_event_world).1)
    = reporting_calls (trace single_event_world).
Proof.
  split; [reflexivity|].
  exact (X13_failed_run_reports_nothing None single_event_world
           (TypeError "'NoneType' object is not iterable") eq_refl).
Defined.

Lemma foldl_record_lookup (h : list (string * outcome)) (d : gmap string nat) (name : string) :
  foldl record_outcome d h !! name
  = match last (named name h) with
    | Some entry => Some (recorded entry.2)
    | None => d !! name
    end.
Proof.
  induction h as [|entry h IH] using rev_ind; [done|].
  rewrite foldl_app. cbn [foldl]. unfold record_outcome at 1.
  unfold named in *. rewrite filter_app, filter_cons, filter_nil.
  case_decide as Hn.
  - rewrite last_snoc. subst name. by rewrite lookup_insert_eq.
  - rewrite app_nil_r, lookup_insert_ne by done. apply IH.
Qed.

(** X14. After a loop that ran to its end, the count recorded under an
    identifier is that of the last rule with this identifier (0 if it failed
    fatally), and identifiers of no rule have no entry: an earlier rule of the
    same identifier is overwritten. *)
Theorem X14_last_rule_of_a_name_is_recorded (rules : list Rule) (w w' : World)
    (st : RunState) (name : string) :
  rules_loop (length rules) rules init_state w = (w', Ok st) →
  tags_applied st !! name
  = (λ entry, recorded entry.2)
      <$> last (named name (history (length rules) rules init_state w)).
Proof.
  intros Hloop. apply rules_loop_history in Hloop as (_ & _ & -> & _).
  cbn [tags_applied init_state]. rewrite foldl_record_lookup.
  by destruct (last _).
Qed.

Lemma X14_last_rule_of_a_name_is_recorded_witness :
  let out := rules_loop 2 duplicate_rules init_state duplicate_world in
  out = (out.1, Ok (state_of out.2))
  ∧ tags_applied (state_of out.2) !! "A"
    = (λ entry, recorded entry.2)
        <$> last (named "A" (history 2 duplicate_rules init_state duplicate_world))
  ∧ tags_applied (state_of out.2) !! "A" = Some 1.
Proof.
  intros out.
  assert (E : out = (out.1, Ok (state_of out.2))) by (vm_compute; reflexivity).
  split; [exact E|]. split.
  - exact (X14_last_rule_of_a_name_is_recorded duplicate_rules duplicate_world out.1
             (state_of out.2) "A" E).
  - vm_compute. reflexivity.
Defined.

Lemma run_sigma_rule_stream (query rule_name : string) (l : list string) (w : World) :
  ∃ w' l',
    run_sigma_rule query rule_name (Some l) w
    = (w', Some l',
       match stream_error (event_stream query w).1 with
       | None => Ok (length (yielded (event_stream query w).1))
       | Some e => Raised e
       end)
    ∧ commits (trace w') = commits (trace w) ++ yielded (event_stream query w).1.
Proof.
  unfold run_sigma_rule, event_stream.
  destruct (backend w) as [|answer rest]; cbn [fst snd].
  - exists w, l. by rewrite app_nil_r.
  - apply (events_loop_Some (answer query) rule_name l 0 (set_backend rest w)).
Qed.

(** X15. When the stream of a rule with a tag list fails with an error that is
    not a transport error, the iteration ends normally, records the count 0
    and one bullet for the rule, and the events yielded before the failure
    stay committed. *)
Theorem X15_fatal_rule_counts_zero (len : nat) (rule : Rule) (st : RunState) (w : World)
    (l : list string) (e : exn) :
  tags rule = Some l →
  stream_error (event_stream (es_query rule) w).1 = Some e →
  is_transport e = false →
  ∃ w' st',
    rule_body len rule st w = (w', Ok st')
    ∧ tags_applied st' !! file_name rule = Some 0
    ∧ problem_strings st' = problem_strings st ++ [bullet (file_name rule)]
    ∧ commits (trace w') = commits (trace w) ++ yielded (event_stream (es_query rule) w).1.
Proof.
  intros Htags Herr He. unfold rule_body. rewrite Htags.
  destruct (run_sigma_rule_stream (es_query rule) (file_name rule) l w) as (w1 & l1 & -> & Hc).
  rewrite Herr, He. eexists _, _. split; [reflexivity|].
  cbn [tags_applied problem_strings emit trace].
  split_and!; [by rewrite lookup_insert_eq|done|].
  by rewrite commits_app, Hc, app_nil_r.
Qed.

Lemma X15_fatal_rule_counts_zero_witness :
  let rule := mkRule "C" "qc" (Some ["susp_proc"]) in
  stream_error (event_stream "qc" partial_world).1 = Some (OtherError "boom")
  ∧ ∃ w' st',
      rule_body 1 rule init_state partial_world = (w', Ok st')
      ∧ tags_applied st' !! "C" = Some 0
      ∧ problem_strings st' = [] ++ [bullet "C"]
      ∧ commits (trace w') = [] ++ ["e1"].
Proof.
  intros rule. split; [reflexivity|].
  exact (X15_fatal_rule_counts_zero 1 rule init_state partial_world ["susp_proc"]
           (OtherError "boom") eq_refl eq_refl eq_refl).
Defined.

Lemma sum_values_insert_le (key : string) (n : nat) (d : gmap string nat) :
  sum_values (<[key := n]> d) ≤ n + sum_values d.
Proof.
  destruct (d !! key) as [v|] eqn:E.
  - rewrite <- (insert_delete_eq d).
    rewrite sum_values_insert_fresh by apply lookup_delete_eq.
    rewrite <- (insert_delete_id d key v E) at 2.
    rewrite sum_values_insert_fresh by apply lookup_delete_eq. lia.
  - by rewrite sum_values_insert_fresh.
Qed.

Lemma commits_trace_ext (P : call → bool) (w w' : World) :
  trace_ext P w w' → length (commits (trace w)) ≤ length (commits (trace w')).
Proof. intros (t & -> & _). rewrite commits_app, length_app. lia. Qed.

Lemma run_sigma_rule_Ok_commits (query rule_name : string) (tag_list : option (list string))
    (w w' : World) (tag_list' : option (list string)) (n : nat) :
  run_sigma_rule query rule_name tag_list w = (w', tag_list', Ok n) →
  length (commits (trace w')) = length (commits (trace w)) + n.
Proof.
  unfold run_sigma_rule, event_stream.
  destruct (backend w) as [|answer rest]; intros E;
    apply events_loop_Ok in E as (_ & -> & ->); rewrite length_app; done.
Qed.

Lemma rule_body_total (len : nat) (rule : Rule) (st st' : RunState) (w w' : World) :
  rule_body len rule st w = (w', Ok st') →
  sum_values (tags_applied st') + length (commits (trace w))
  ≤ sum_values (tags_applied st) + length (commits (trace w')).
Proof.
  unfold rule_body.
  destruct (run_sigma_rule _ _ (tags rule) w) as [[w1 tl1] [n|e]] eqn:E1.
  - apply run_sigma_rule_Ok_commits in E1.
    pose proof (sum_values_insert_le (file_name rule) n (tags_applied st)).
    destruct (_ =? _); intros [= <- <-]; cbn [tags_applied emit trace];
      rewrite dict_add_fresh, ?commits_app, ?length_app; lia.
  - apply run_sigma_rule_frame in E1 as (_ & Ht1 & _).
    apply commits_trace_ext in Ht1.
    destruct (is_transport e).
    + destruct (run_sigma_rule _ _ tl1 _) as [[w2 tl2] [n|e']] eqn:E2; [|done].
      apply run_sigma_rule_Ok_commits in E2. intros [= <- <-]. cbn [tags_applied].
      rewrite dict_add_fresh.
      pose proof (sum_values_insert_le (file_name rule) n (tags_applied st)).
      unfold cooldown in E2. cbn [emit trace] in E2.
      rewrite !commits_app, !length_app in E2. lia.
    + intros [= <- <-]. cbn [tags_applied emit trace].
      pose proof (sum_values_insert_le (file_name rule) 0 (tags_applied st)).
      rewrite commits_app, length_app. lia.
Qed.

Lemma rules_loop_total (len : nat) (rules : list Rule) (st st' : RunState) (w w' : World) :
  rules_loop len rules st w = (w', Ok st') →
  sum_values (tags_applied st') + length (commits (trace w))
  ≤ sum_values (tags_applied st) + length (commits (trace w')).
Proof.
  revert st w. induction rules as [|rule rules IH]; intros st w; cbn [rules_loop].
  - intros [= <- <-]. lia.
  - destruct (rule_body len rule st w) as [w1 [st1|e]] eqn:E1; [|done].
    intros E2. apply rule_body_total in E1. apply IH in E2. lia.
Qed.

(** X16. The total of the recorded counts never exceeds the number of commits
    made during the loop. *)
Theorem X16_total_never_exceeds_commits (rules : list Rule) (w w' : World) (st : RunState) :
  rules_loop (length rules) rules init_state w = (w', Ok st) →
  sum_values (tags_applied st) + length (commits (trace w)) ≤ length (commits (trace w')).
Proof. intros E. by apply rules_loop_total in E. Qed.

Lemma X16_total_never_exceeds_commits_witness :
  let out := rules_loop 2 duplicate_rules init_state duplicate_world in
  out = (out.1, Ok (state_of out.2))
  ∧ sum_values (tags_applied (state_of out.2)) + length (commits (trace duplicate_world))
    ≤ length (commits (trace out.1))
  ∧ sum_values (tags_applied (state_of out.2)) = 1
  ∧ length (commits (trace out.1)) = 3.
Proof.
  intros out.
  assert (E : out = (out.1, Ok (state_of out.2))) by (vm_compute; reflexivity).
  split; [exact E|]. split.
  - exact (X16_total_never_exceeds_commits duplicate_rules duplicate_world out.1
             (state_of out.2) E).
  - split; vm_compute; reflexivity.
Defined.

Lemma tag_loop_ts_ttp (fuel i : nat) (tag_list ts_ttp : list string) :
  tag_loop fuel i tag_list ts_ttp
  = ((tag_loop fuel i tag_list []).1, ts_ttp ++ (tag_loop fuel i tag_list []).2).
Proof.
  revert i tag_list ts_ttp.
  induction fuel as [|fuel IH]; intros i l t; cbn [tag_loop].
  - by rewrite app_nil_r.
  - destruct (l !! i) as [tag|]; [|by rewrite app_nil_r].
    destruct (is_ttp tag); [|apply IH].
    rewrite (IH _ _ (t ++ [tag])), (IH _ _ ([] ++ [tag])). cbn [fst snd].
    by rewrite <- app_assoc.
Qed.

(** X17. Tagging an event a second time with the same rule and the same tag
    list as supplied changes neither [ts_sigma_rule] nor [ts_ttp] as a set. *)
Theorem X17_tagging_twice_adds_nothing (rule_name : string) (tag_list : list string)
    (id : string) (w : World) :
  let w1 := (tag_event rule_name (Some tag_list) (fetch id w) w).1.1 in
  let w2 := (tag_event rule_name (Some tag_list) (fetch id w1) w1).1.1 in
  same_elements (attr "ts_sigma_rule" id w2) (attr "ts_sigma_rule" id w1)
  ∧ same_elements (attr "ts_ttp" id w2) (attr "ts_ttp" id w1).
Proof.
  intros w1 w2. subst w1 w2.
  destruct (tag_event_Some rule_name tag_list id w) as (w1 & -> & _ & _ & _ & _ & Hr1 & Ht1).
  cbn [fst].
  destruct (tag_event_Some rule_name tag_list id w1) as (w2 & -> & _ & _ & _ & _ & Hr2 & Ht2).
  cbn [fst]. split; intros x.
  - rewrite Hr2, Hr1. unfold list_set.
    rewrite !elem_of_remove_dups, !elem_of_app, !elem_of_remove_dups, !elem_of_app. tauto.
  - rewrite Ht2. rewrite (tag_loop_ts_ttp _ _ _ (attr "ts_ttp" id w1)). cbn [snd].
    rewrite (tag_loop_ts_ttp _ _ _ (attr "ts_ttp" id w)) in Ht1. cbn [snd] in Ht1.
    set (moved := (tag_loop (length tag_list) 0 tag_list []).2) in *.
    assert (Hmoved : ∀ y, y ∈ moved → y ∈ attr "ts_ttp" id w1).
    { intros y Hy. rewrite Ht1. destruct (0 <? _) eqn:Epos.
      - apply elem_of_remove_dups, elem_of_app. by right.
      - apply Nat.ltb_ge in Epos. rewrite length_app in Epos.
        assert (moved = []) as Hnil by (apply length_zero_iff_nil; lia).
        rewrite Hnil in Hy. by apply elem_of_nil in Hy. }
    destruct (0 <? length (attr "ts_ttp" id w1 ++ moved)); [|done].
    unfold list_set. rewrite elem_of_remove_dups, elem_of_app.
    split; [intros [?|?]; auto|auto].
Qed.
